(** * teamlucc: the NSPI cloud fill kernel ([src/cloud_fill.cpp])

    A shallow embedding of [cloud_fill], the Rcpp/Armadillo routine that fills
    the cloud regions of a multi-band image from a clear reference image, and
    the properties of it that the specification states.

    The routine is written once over an interface of the arithmetic of a C++
    [double] ([Arith]) and instantiated twice: with IEEE binary64 numbers
    ([PrimFloat], which evaluates), and with the real numbers (for the
    statements the specification makes "in real arithmetic").

    Conventions. The cloud mask is an [arma::vec] holding integer codes; it
    is a [list Z] here, and [int cloud_code = cloud_codes(n)] is the
    identity on the codes that are [int]s (32 bits); the window bounds are
    [int]s and wrap around. An exception thrown by Armadillo (its bounds checks
    are on in RcppArmadillo) ends the call without a result, and so does the
    conversion to [int] of a code outside its range, which C++ leaves
    undefined: the routine returns an [option]. Sums are taken from left to right; Armadillo adds
    the same terms in another order, which is the same number over the
    reals, and over binary64 wherever the terms add without rounding. The
    concrete runs below state values that come from such sums only, and
    otherwise comparisons that rounding does not change. *)

From Stdlib Require Import ZArith List Bool Lia PeanoNat Permutation Sorted.
From Stdlib Require Import PrimFloat Uint63.
From Stdlib Require Import Reals Lra.
Import ListNotations.

Set Implicit Arguments.

(* ================================================================== *)
(** ** The arithmetic of [double] *)

(** What [cloud_fill] uses of a [double]: the conversion from an integer
    ([int], [uword] or an integer literal), the four operations, [sqrt], and
    the comparisons [<] and [<=]. *)
Class Arith (num : Type) : Type := {
  of_Z  : Z -> num;
  nadd  : num -> num -> num;
  nsub  : num -> num -> num;
  nmul  : num -> num -> num;
  ndiv  : num -> num -> num;
  nsqrt : num -> num;
  nltb  : num -> num -> bool;
  nleb  : num -> num -> bool
}.

Declare Scope num_scope.
Delimit Scope num_scope with num.
Infix "+^" := nadd (at level 50, left associativity) : num_scope.
Infix "-^" := nsub (at level 50, left associativity) : num_scope.
Infix "*^" := nmul (at level 40, left associativity) : num_scope.
Infix "/^" := ndiv (at level 40, left associativity) : num_scope.
Infix "<?^" := nltb (at level 70, no associativity) : num_scope.
Infix "<=?^" := nleb (at level 70, no associativity) : num_scope.

(** IEEE binary64: the conversion is exact below 2^53 in absolute value. *)
Definition float_of_Z (z : Z) : float :=
  match z with
  | Z0 => PrimFloat.of_uint63 0
  | Zpos _ => PrimFloat.of_uint63 (Uint63.of_Z z)
  | Zneg p => PrimFloat.opp (PrimFloat.of_uint63 (Uint63.of_Z (Zpos p)))
  end.

#[export] Instance binary64 : Arith float := {|
  of_Z  := float_of_Z;
  nadd  := PrimFloat.add;
  nsub  := PrimFloat.sub;
  nmul  := PrimFloat.mul;
  ndiv  := PrimFloat.div;
  nsqrt := PrimFloat.sqrt;
  nltb  := PrimFloat.ltb;
  nleb  := PrimFloat.leb
|}.

(** Real arithmetic: the same program without rounding. *)
Definition Rltb (x y : R) : bool := if Rlt_dec x y then true else false.
Definition Rleb (x y : R) : bool := if Rle_dec x y then true else false.

#[export] Instance real : Arith R := {|
  of_Z  := IZR;
  nadd  := Rplus;
  nsub  := Rminus;
  nmul  := Rmult;
  ndiv  := Rdiv;
  nsqrt := sqrt;
  nltb  := Rltb;
  nleb  := Rleb
|}.

(* ================================================================== *)
(** ** The Armadillo operations the routine calls *)

(** A [uvec] is a [list nat]; a [vec] or [rowvec] of doubles a [list num]; a
    [mat] whose rows are pixels and whose columns are bands is the list of
    its rows, each row the list of one pixel's band values (so [m(k, b)] is
    [nth b (nth k m [])]). *)

Definition row (num : Type) : Type := list num.
Definition mat (num : Type) : Type := list (row num).

Section Armadillo.
Context {num : Type} {A : Arith num}.
Local Open Scope num_scope.

(** [find(v == c)], [find(c(v))]: the positions that satisfy the test, in
    ascending order. *)
Fixpoint find_from {T : Type} (p : T -> bool) (i : nat) (v : list T) : list nat :=
  match v with
  | [] => []
  | x :: t => if p x then i :: find_from p (S i) t else find_from p (S i) t
  end.

Definition find {T : Type} (p : T -> bool) (v : list T) : list nat :=
  find_from p 0 v.

(** [unique(v)]: the distinct values in ascending order. *)
Fixpoint insert_unique (x : Z) (l : list Z) : list Z :=
  match l with
  | [] => [x]
  | y :: t =>
      if (x <? y)%Z then x :: l
      else if (x =? y)%Z then l
      else y :: insert_unique x t
  end.

Definition unique (v : list Z) : list Z := fold_right insert_unique [] v.

(** [min] and [max] of a [uvec] (the routine calls them on a vector that
    is not empty). *)
Definition umin (l : list nat) : nat := fold_right Nat.min (hd 0 l) l.
Definition umax (l : list nat) : nat := fold_right Nat.max (hd 0 l) l.

(** [min] and [max] of a [vec]: a scan keeping the best value so far. *)
Definition vmin (l : list num) : num :=
  fold_left (fun m x => if x <?^ m then x else m) (tl l) (hd (of_Z 0) l).
Definition vmax (l : list num) : num :=
  fold_left (fun m x => if m <?^ x then x else m) (tl l) (hd (of_Z 0) l).

(** [sum] / [accu] of a vector, and [mean]. The terms are added from left
    to right. Armadillo keeps two partial sums, of the terms at even and at
    odd positions, and adds them at the end, and it computes a mean that is
    not finite again as a running mean: the same number over the reals,
    and over binary64 wherever the terms add without rounding to a finite
    sum. *)
Definition vsum (l : list num) : num := fold_left nadd l (of_Z 0).

Definition vmean (l : list num) : num :=
  vsum l /^ of_Z (Z.of_nat (length l)).

(** [stddev(v, 0)]: the square root of Armadillo's sample variance (the
    two-pass formula of [op_var::direct_var]); 0 below two elements. *)
Definition vvar (l : list num) : num :=
  if 2 <=? length l then
    let acc1 := vmean l in
    let acc2 := vsum (map (fun x => (acc1 -^ x) *^ (acc1 -^ x)) l) in
    let acc3 := vsum (map (fun x => acc1 -^ x) l) in
    (acc2 -^ acc3 *^ acc3 /^ of_Z (Z.of_nat (length l)))
      /^ of_Z (Z.of_nat (length l - 1))
  else of_Z 0.

Definition vstddev (l : list num) : num := nsqrt (vvar l).

(** Column [b] of a matrix, and the column-wise [mean(m, 0)] and
    [stddev(m, 0, 0)] of a matrix with [bands] columns. *)
Definition col (b : nat) (m : mat num) : list num :=
  map (fun r => nth b r (of_Z 0)) m.

Definition mean_cols (bands : nat) (m : mat num) : row num :=
  map (fun b => vmean (col b m)) (seq 0 bands).

Definition stddev_cols (bands : nat) (m : mat num) : row num :=
  map (fun b => vstddev (col b m)) (seq 0 bands).

(** Element-wise operations on rows and matrices. *)
Definition map2 {X Y Z : Type} (f : X -> Y -> Z) (a : list X) (b : list Y) : list Z :=
  map (fun xy => f (fst xy) (snd xy)) (combine a b).

Definition row_add (a b : row num) : row num := map2 nadd a b.
Definition row_sub (a b : row num) : row num := map2 nsub a b.
Definition mat_sub (a b : mat num) : mat num := map2 row_sub a b.

(** [m.rows(idx)]: the rows at the listed positions. *)
Definition rows_at (m : mat num) (idx : list nat) : mat num :=
  map (fun i => nth i m []) idx.

(** [sort_index(v)]: the positions of [v] in ascending order of value.
    Armadillo sorts with [std::sort], which leaves the order of equal
    values open (in libstdc++ a vector of up to 16 values is sorted by
    insertion and equal values keep their order of position); here equal
    values keep their order of position. The statements below that hold
    for every image do not depend on the order of equal values. *)
Fixpoint insert_sorted (x : num * nat) (l : list (num * nat)) : list (num * nat) :=
  match l with
  | [] => [x]
  | y :: t => if fst y <?^ fst x then y :: insert_sorted x t else x :: l
  end.

Definition sort_index (v : list num) : list nat :=
  map snd (fold_right insert_sorted [] (combine v (seq 0 (length v)))).

(** Replacing row [k] of a matrix. *)
Fixpoint set_row (k : nat) (r : row num) (m : mat num) : mat num :=
  match m, k with
  | [], _ => []
  | _ :: t, O => r :: t
  | x :: t, S k' => x :: set_row k' r t
  end.

End Armadillo.

(* ================================================================== *)
(** ** [cloud_fill] *)

(** The similar pixels found for one target: the four arrays
    [cloudy_similar], [clear_similar], [rmse_similar] and [dis_similar] of
    lines 128-131, cut to the [num_similar] rows that were filled. *)
Record similar (num : Type) : Type := {
  cloudy_similar : mat num;
  clear_similar  : mat num;
  rmse_similar   : list num;
  dis_similar    : list num
}.

(** The neighbourhood of a cloud: [up_row], [left_col], [down_row] and
    [right_col] of lines 56-66, as the [int]s they are. *)
Record window : Type := {
  up_row : Z;
  left_col : Z;
  down_row : Z;
  right_col : Z
}.

(** An [int] has 32 bits. [to_int z] is the [int] that results from an
    integer value [z] computed in unsigned arithmetic ([uword]) and stored
    in an [int]: the value modulo 2^32 that lies in [-2^31, 2^31). *)
Definition int_min : Z := (-2147483648)%Z.
Definition int_max : Z := 2147483647%Z.
Definition to_int (z : Z) : Z :=
  ((z + 2147483648) mod 4294967296 - 2147483648)%Z.
Definition in_int (z : Z) : bool := (int_min <=? z)%Z && (z <=? int_max)%Z.

Arguments to_int : simpl never.

Definition num_sub_rows (w : window) : nat := Z.to_nat (down_row w - up_row w + 1).
Definition num_sub_cols (w : window) : nat := Z.to_nat (right_col w - left_col w + 1).

Section CloudFill.
Context {num : Type} {A : Arith num}.
Local Open Scope num_scope.

(** [dims], the tuning parameters, and the two inputs the routine only
    reads. An image is the [mat] of its pixels in column-major order, one
    row of band values per pixel: pixel (r, c) is row [r + rows * c]. *)
Variables (rows cols bands : nat).
Variables (num_class min_pixel cloud_nbh DN_min DN_max : Z).
Variable clear : mat num.
Variable cloud_mask : list Z.

(** The literals [0.000001] and [0.0000001]. *)
Definition eps6 : num := of_Z 1 /^ of_Z 1000000.
Definition eps7 : num := of_Z 1 /^ of_Z 10000000.

Definition of_nat (n : nat) : num := of_Z (Z.of_nat n).

(** [pow(x, 2)]. *)
Definition sq (x : num) : num := x *^ x.

(** *** The similar-pixel search (lines 118-144) *)

Section Search.
Variable similar_th_band : row num.
Variables sub_clear_clear sub_cloudy_clear : mat num.
(** [sub_clear.row(ic)], the spectrum the candidates are compared to. *)
Variable target : row num.
Variable clear_dists : list num.
(** [order_clear] after line 123. *)
Variable order_clear : list nat.

(** Line 133: the number of bands in which candidate [k] passes. *)
Definition indicate_similar (k : nat) : nat :=
  length (filter (fun t : bool => t)
            (map2 nleb (row_sub (nth k sub_clear_clear []) target) similar_th_band)).

(** Line 138: the spectral distance of candidate [k]. *)
Definition rmse_of (k : nat) : num :=
  nsqrt (vsum (map sq (row_sub (nth k sub_clear_clear []) target)) /^ of_nat bands).

Definition accept (k : nat) (s : similar num) : similar num :=
  {| cloudy_similar := cloudy_similar s ++ [nth k sub_cloudy_clear []];
     clear_similar := clear_similar s ++ [nth k sub_clear_clear []];
     rmse_similar := rmse_similar s ++ [rmse_of k];
     dis_similar := dis_similar s ++ [nth k clear_dists (of_Z 0)] |}.

(** The [while] loop of lines 132-144. Each turn increments [iclear], so
    [length order_clear] turns are enough ([order_clear] is not empty when
    the loop is reached, so [n_elem - 1] does not wrap). *)
Fixpoint similar_loop (fuel iclear num_similar : nat) (s : similar num)
  : nat * similar num :=
  match fuel with
  | O => (num_similar, s)
  | S fuel' =>
      if (Z.of_nat num_similar <=? min_pixel - 1)%Z
         && (iclear <=? length order_clear - 1)
      then
        let k := nth iclear order_clear 0 in
        if indicate_similar k =? bands
        then similar_loop fuel' (S iclear) (S num_similar) (accept k s)
        else similar_loop fuel' (S iclear) num_similar s
      else (num_similar, s)
  end.
End Search.

Definition no_similar : similar num :=
  {| cloudy_similar := []; clear_similar := []; rmse_similar := []; dis_similar := [] |}.

(** Line 118: the distance of every clear pixel to the target. *)
Definition clear_dists_of (sub_clear_row_i sub_clear_col_i : list nat) (ri ci : nat)
  : list num :=
  map2 (fun r c => nsqrt (sq (of_nat r -^ of_nat ri) +^ sq (of_nat c -^ of_nat ci)))
       sub_clear_row_i sub_clear_col_i.

(** Lines 118-144. [order_clear(span(1, n_elem - 1))] throws when there are
    fewer than two clear pixels (with none, [n_elem - 1] wraps; with one,
    the span is reversed), and so does the allocation of [min_pixel] rows
    for a negative [min_pixel]: [None]. The walk starts at [iclear = 1]. *)
Definition find_similar (similar_th_band : row num)
    (sub_clear_clear sub_cloudy_clear : mat num)
    (sub_clear_row_i sub_clear_col_i : list nat)
    (target : row num) (ri ci : nat) : option (nat * similar num) :=
  let clear_dists := clear_dists_of sub_clear_row_i sub_clear_col_i ri ci in
  let sorted := sort_index clear_dists in
  if length sorted <=? 1 then None
  else if (min_pixel <? 0)%Z then None
  else
    let order_clear := tl sorted in
    Some (similar_loop similar_th_band sub_clear_clear sub_cloudy_clear target
            clear_dists order_clear (length order_clear) 1 0 no_similar).

(** *** The weighted predictor (lines 147-185) *)

(** Lines 156-157: min-max scaling into [1, 2]. *)
Definition normalise (v : list num) : list num :=
  map (fun x => (x -^ vmin v) /^ (vmax v -^ vmin v +^ eps6) +^ of_Z 1) v.

(** Line 158. *)
Definition C_D (rmse dis : list num) : list num :=
  map2 (fun a b => a *^ b +^ eps7) (normalise rmse) (normalise dis).

(** Line 159. *)
Definition weight (rmse dis : list num) : list num :=
  let inv := map (fun c => of_Z 1 /^ c) (C_D rmse dis) in
  map (fun x => x /^ vsum inv) inv.

(** Line 115. *)
Definition r2_of (x_center y_center : num) (ri ci : nat) : num :=
  nsqrt (sq (x_center -^ of_nat ri) +^ sq (y_center -^ of_nat ci)).

(** Lines 162-163. *)
Definition W_T1 (r2 : num) (dis : list num) : num := r2 /^ (r2 +^ vmean dis).
Definition W_T2 (r2 : num) (dis : list num) : num := vmean dis /^ (r2 +^ vmean dis).

(** [m.each_col() %= w] followed by [sum(m, 0)]. *)
Definition weighted_sum (m : mat num) (w : list num) : row num :=
  map (fun b => vsum (map2 nmul (col b m) w)) (seq 0 bands).

(** Lines 166-172. *)
Definition predict_1 (s : similar num) : row num :=
  weighted_sum (cloudy_similar s) (weight (rmse_similar s) (dis_similar s)).

Definition predict_2 (target : row num) (s : similar num) : row num :=
  row_add target
    (weighted_sum (mat_sub (cloudy_similar s) (clear_similar s))
                  (weight (rmse_similar s) (dis_similar s))).

(** Lines 173-179: the new value of each band. *)
Definition blend (r2 : num) (target : row num) (s : similar num) : row num :=
  map (fun iband =>
         let p1 := nth iband (predict_1 s) (of_Z 0) in
         let p2 := nth iband (predict_2 target s) (of_Z 0) in
         if (of_Z DN_min <?^ p2) && (p2 <?^ of_Z DN_max)
         then W_T1 r2 (dis_similar s) *^ p1 +^ W_T2 r2 (dis_similar s) *^ p2
         else p1)
      (seq 0 bands).

(** Line 184. *)
Definition fallback (target mean_diff : row num) : row num :=
  row_add target mean_diff.

(** Lines 147-185: the new row, from the outcome of the search. *)
Definition predict (r2 : num) (target mean_diff : row num)
    (found : nat * similar num) : row num :=
  if 1 <? fst found then blend r2 target (snd found)
  else fallback target mean_diff.

(** *** One cloud inside its neighbourhood (lines 87-186) *)

(** [sub_cloud_mask], [sub_clear] and [sub_cloudy] are the neighbourhood
    [w] cut out of the mask and the images, in column-major order. Every
    turn of the loop over the cloud's pixels reads [sub_clear.row(ic)] and
    writes [sub_cloudy.row(ic)], [ic] being the turn's counter; [ri] and
    [ci] come from [sub_cloud_vec_i(ic)]. *)
Section Neighbourhood.
Variable cloud_code : Z.
Variable w : window.
Variable sub_cloud_mask : list Z.
Variable sub_clear : mat num.

Definition x_center : num := of_nat (num_sub_cols w) /^ of_Z 2.
Definition y_center : num := of_nat (num_sub_rows w) /^ of_Z 2.

(** Line 88. *)
Definition similar_th_band : row num :=
  map (fun s => s *^ of_Z 2 /^ of_Z num_class) (stddev_cols bands sub_clear).

(** Lines 92-94. *)
Definition sub_clear_vec_i : list nat := find (fun v => (v =? 0)%Z) sub_cloud_mask.
Definition sub_clear_col_i : list nat :=
  map (fun i => i / num_sub_rows w) sub_clear_vec_i.
Definition sub_clear_row_i : list nat :=
  map (fun i => i - (i / num_sub_rows w) * num_sub_rows w) sub_clear_vec_i.

(** Line 96. *)
Definition sub_clear_clear : mat num := rows_at sub_clear sub_clear_vec_i.

(** Lines 105-107. *)
Definition sub_cloud_vec_i : list nat :=
  find (fun v => (v =? cloud_code)%Z) sub_cloud_mask.
Definition sub_cloud_col_i : list nat :=
  map (fun i => i / num_sub_rows w) sub_cloud_vec_i.
Definition sub_cloud_row_i : list nat :=
  map (fun i => i - (i / num_sub_rows w) * num_sub_rows w) sub_cloud_vec_i.

(** Lines 97-100, taken from [sub_cloudy] as it is before the loop. *)
Definition sub_cloudy_clear (sub_cloudy : mat num) : mat num :=
  rows_at sub_cloudy sub_clear_vec_i.

Definition mean_diff (sub_cloudy : mat num) : row num :=
  mean_cols bands (mat_sub (sub_cloudy_clear sub_cloudy) sub_clear_clear).

(** One turn of the loop of lines 109-186: the position of the target
    pixel, the search, and the row written at [ic]. *)
Definition ri_of (ic : nat) : nat := nth ic sub_cloud_row_i 0.
Definition ci_of (ic : nat) : nat := nth ic sub_cloud_col_i 0.

Definition found_at (sub_cloudy0 : mat num) (ic : nat) : option (nat * similar num) :=
  find_similar similar_th_band sub_clear_clear (sub_cloudy_clear sub_cloudy0)
    sub_clear_row_i sub_clear_col_i (nth ic sub_clear []) (ri_of ic) (ci_of ic).

Definition fill_pixel (sub_cloudy0 : mat num) (ic : nat) : option (row num) :=
  match found_at sub_cloudy0 ic with
  | None => None
  | Some found =>
      Some (predict (r2_of x_center y_center (ri_of ic) (ci_of ic))
              (nth ic sub_clear []) (mean_diff sub_cloudy0) found)
  end.

Definition fill_step (sub_cloudy0 : mat num) (st : option (mat num)) (ic : nat)
  : option (mat num) :=
  match st with
  | None => None
  | Some sub_cloudy =>
      match fill_pixel sub_cloudy0 ic with
      | None => None
      | Some r => Some (set_row ic r sub_cloudy)
      end
  end.

Definition fill_sub (sub_cloudy : mat num) : option (mat num) :=
  fold_left (fill_step sub_cloudy) (seq 0 (length sub_cloud_vec_i)) (Some sub_cloudy).
End Neighbourhood.

(** *** The neighbourhood of a cloud in the image (lines 51-85, 188-194) *)

(** Lines 51-66. [min(...) - cloud_nbh] and [max(...) + cloud_nbh] are
    computed in [uword] and stored in an [int], so they wrap around; then
    the bounds are clamped to the image ([dims] below 2^31). *)
Definition window_of (cloud_vec_i : list nat) : window :=
  let cloud_col_i := map (fun i => i / rows) cloud_vec_i in
  let cloud_row_i := map (fun i => i - (i / rows) * rows) cloud_vec_i in
  let left := to_int (Z.of_nat (umin cloud_col_i) - cloud_nbh) in
  let right := to_int (Z.of_nat (umax cloud_col_i) + cloud_nbh) in
  let up := to_int (Z.of_nat (umin cloud_row_i) - cloud_nbh) in
  let down := to_int (Z.of_nat (umax cloud_row_i) + cloud_nbh) in
  {| up_row := if (up <? 0)%Z then 0%Z else up;
     left_col := if (left <? 0)%Z then 0%Z else left;
     down_row := if (down >? Z.of_nat rows - 1)%Z then (Z.of_nat rows - 1)%Z else down;
     right_col := if (right >? Z.of_nat cols - 1)%Z then (Z.of_nat cols - 1)%Z else right |}.

(** The image position of the cell at position [k] of the neighbourhood,
    and back. *)
Definition pixel_at (w : window) (k : nat) : nat :=
  (Z.to_nat (up_row w) + k mod num_sub_rows w)
  + rows * (Z.to_nat (left_col w) + k / num_sub_rows w).

Definition sub_index (w : window) (p : nat) : nat :=
  (p mod rows - Z.to_nat (up_row w))
  + num_sub_rows w * (p / rows - Z.to_nat (left_col w)).

Definition in_window (w : window) (p : nat) : bool :=
  let r := Z.of_nat (p mod rows) in
  let c := Z.of_nat (p / rows) in
  (up_row w <=? r)%Z && (r <=? down_row w)%Z
  && (left_col w <=? c)%Z && (c <=? right_col w)%Z.

(** [tube] / [submat] followed by the copy of lines 78-83. *)
Definition sub_block {T : Type} (d : T) (w : window) (img : list T) : list T :=
  map (fun k => nth (pixel_at w k) img d) (seq 0 (num_sub_rows w * num_sub_cols w)).

(** Lines 188-194: the whole neighbourhood is copied back, band by band. *)
Definition write_back (w : window) (sub_cloudy cloudy : mat num) : mat num :=
  map (fun p => if in_window w p then nth (sub_index w p) sub_cloudy []
                else nth p cloudy [])
      (seq 0 (length cloudy)).

(** Lines 47-76: the neighbourhood of the cloud with code [cloud_code],
    when there is one. Line 47 stores the code in an [int]: for a code that
    is not an [int] the conversion is undefined (on x86-64 it gives
    [INT_MIN], which matches no cell of a mask without that value), and no
    neighbourhood is built. [min] of an empty vector throws, and so does
    [tube] when its bounds are reversed or outside the image (the clamps
    keep [up_row >= 0] and [down_row <= rows - 1], so a wrapped, negative
    [down_row] or [right_col] shows as a reversed pair): [None]. *)
Definition region_window (cloud_code : Z) : option window :=
  if negb (in_int cloud_code) then None
  else
    let cloud_vec_i := find (fun v => (v =? cloud_code)%Z) cloud_mask in
    if length cloud_vec_i =? 0 then None
    else
      let w := window_of cloud_vec_i in
      if (up_row w >? down_row w)%Z || (left_col w >? right_col w)%Z then None
      else Some w.

(** One turn of the loop over the cloud codes (lines 46-195), for the code
    that line 47 stores in [cloud_code]: a turn without a neighbourhood
    ([region_window], which also stands for a code that is no [int]) or
    with a pixel whose search throws ends the call. *)
Definition fill_region (cloudy : mat num) (cloud_code : Z) : option (mat num) :=
  match region_window cloud_code with
  | None => None
  | Some w =>
      match fill_sub cloud_code w (sub_block 0%Z w cloud_mask)
              (sub_block [] w clear) (sub_block [] w cloudy) with
      | None => None
      | Some sub_cloudy => Some (write_back w sub_cloudy cloudy)
      end
  end.

Definition fill_regions (codes : list Z) (cloudy : mat num) : option (mat num) :=
  fold_left (fun st code =>
               match st with
               | None => None
               | Some c => fill_region c code
               end)
            codes (Some cloudy).

(** Lines 42-44. *)
Definition cloud_codes : list Z := filter (fun c => (1 <=? c)%Z) (unique cloud_mask).

(** The routine: [None] when Armadillo throws, otherwise the filled image. *)
Definition cloud_fill (cloudy : mat num) : option (mat num) :=
  fill_regions cloud_codes cloudy.

End CloudFill.


(* ================================================================== *)
(** ** Notions the statements use *)

(** The walk of the search loop written over the list of the candidates it
    visits, in the order it visits them. *)
Section Walk.
Context {num : Type} {A : Arith num}.
Variable bands : nat.
Variable min_pixel : Z.
Variable similar_th_band : row num.
Variables sub_clear_clear sub_cloudy_clear : mat num.
Variable target : row num.
Variable clear_dists : list num.

Fixpoint walk (visited : list nat) (num_similar : nat) (s : similar num)
  : nat * similar num :=
  match visited with
  | [] => (num_similar, s)
  | k :: rest =>
      if (Z.of_nat num_similar <=? min_pixel - 1)%Z
      then
        if indicate_similar similar_th_band sub_clear_clear target k =? bands
        then walk rest (S num_similar)
               (accept bands sub_clear_clear sub_cloudy_clear target clear_dists k s)
        else walk rest num_similar s
      else (num_similar, s)
  end.
End Walk.

(** The four arrays of the search hold one entry per similar pixel found. *)
Definition filled {num : Type} (n : nat) (s : similar num) : Prop :=
  length (cloudy_similar s) = n /\ length (clear_similar s) = n
  /\ length (rmse_similar s) = n /\ length (dis_similar s) = n.

(** Two neighbourhoods that share no cell. *)
Definition windows_disjoint (w1 w2 : window) : bool :=
  (right_col w1 <? left_col w2)%Z || (right_col w2 <? left_col w1)%Z
  || (down_row w1 <? up_row w2)%Z || (down_row w2 <? up_row w1)%Z.

(** Two clouds of a mask whose neighbourhoods share no cell (a code without
    a neighbourhood is apart from every other). *)
Definition regions_apart (rows cols : nat) (cloud_nbh : Z) (cloud_mask : list Z)
    (a b : Z) : Prop :=
  match region_window rows cols cloud_nbh cloud_mask a,
        region_window rows cols cloud_nbh cloud_mask b with
  | Some wa, Some wb => windows_disjoint wa wb = true
  | _, _ => True
  end.


(** A neighbourhood [tube] accepts, in an image of [rows] rows. *)
Definition window_ok (rows : nat) (w : window) : Prop :=
  (0 <= up_row w <= down_row w)%Z /\ (down_row w <= Z.of_nat rows - 1)%Z
  /\ (0 <= left_col w <= right_col w)%Z.

(* ================================================================== *)
(** ** Concrete images *)

(** Single-band images over binary64, given by their integer samples in
    column-major order. The strips have one row, so that the distances of
    the clear pixels to a target are whole numbers; wherever a stated value
    depends on the order of the candidates, their distances are distinct. *)
Module Examples.

Definition px (l : list Z) : mat float := map (fun x => [float_of_Z x]) l.

(** A strip of six pixels with one cloud pixel at column 3, three clear
    pixels (columns 0, 4 and 5) and two pixels missing in the clear image;
    [cloud_nbh = 3], so the neighbourhood is the whole strip. *)
Definition strip_mask : list Z := [0; -1; -1; 1; 0; 0]%Z.
Definition strip_clear : mat float := px [10; 20; 30; 40; 50; 60]%Z.
Definition strip_cloudy : mat float := px [10; 20; 30; 99; 53; 66]%Z.
Definition strip_w : window :=
  {| up_row := 0; left_col := 0; down_row := 0; right_col := 5 |}.

(** The same strip with a bright first pixel in the clear image. *)
Definition bright_clear : mat float := px [90; 20; 30; 40; 50; 60]%Z.

(** A strip of eight pixels: the cloud pixel at column 0, then seven clear
    pixels of one spectrum; [cloud_nbh = 7]. *)
Definition row8_mask : list Z := [1; 0; 0; 0; 0; 0; 0; 0]%Z.
Definition row8_clear : mat float := px [50; 50; 50; 50; 50; 50; 50; 50]%Z.
Definition row8_cloudy : mat float := px [99; 51; 52; 53; 54; 55; 56; 57]%Z.
Definition row8_w : window :=
  {| up_row := 0; left_col := 0; down_row := 0; right_col := 7 |}.

(** A strip of eight pixels: three pixels missing in the clear image, the
    cloud pixel at column 3, four clear pixels; [cloud_nbh = 4]. *)
Definition mid_mask : list Z := [-1; -1; -1; 1; 0; 0; 0; 0]%Z.
Definition mid_clear : mat float := px [50; 50; 50; 50; 50; 50; 50; 50]%Z.
Definition mid_cloudy : mat float := px [50; 50; 50; 99; 51; 52; 53; 54]%Z.

(** A 2 x 2 image that is one cloud. *)
Definition full_mask : list Z := [1; 1; 1; 1]%Z.
Definition full_clear : mat float := px [10; 20; 30; 40]%Z.
Definition full_cloudy : mat float := px [90; 91; 92; 93]%Z.


(** A strip of eight pixels with two clouds whose neighbourhoods overlap;
    [cloud_nbh = 2]. *)
Definition overlap_mask : list Z := [0; 0; 1; 0; 0; 2; 0; 0]%Z.
Definition overlap_clear : mat float := px [10; 20; 30; 40; 50; 60; 70; 80]%Z.
Definition overlap_cloudy : mat float := px [10; 20; 99; 48; 50; 98; 68; 80]%Z.

(** A strip of eight pixels with two clouds far apart; [cloud_nbh = 1]. *)
Definition far_mask : list Z := [0; 1; 0; 0; 0; 0; 2; 0]%Z.
Definition far_clear : mat float := px [10; 20; 30; 40; 50; 60; 70; 80]%Z.
Definition far_cloudy : mat float := px [11; 99; 32; 43; 54; 65; 98; 87]%Z.

(** The arguments and the outcome of the search for the cloud pixel of the
    eight-pixel strip with the cloud at column 0. *)
Definition row8_th : row float := similar_th_band 1 1 row8_clear.
Definition row8_scc : mat float := sub_clear_clear row8_mask row8_clear.
Definition row8_scyc : mat float := sub_cloudy_clear row8_mask row8_cloudy.
Definition row8_rs : list nat := sub_clear_row_i row8_w row8_mask.
Definition row8_cs : list nat := sub_clear_col_i row8_w row8_mask.
Definition row8_found : similar float :=
  {| cloudy_similar := px [53; 54]%Z;
     clear_similar := px [50; 50]%Z;
     rmse_similar := map float_of_Z [0; 0]%Z;
     dis_similar := map float_of_Z [3; 4]%Z |}.

(** The scores of two similar pixels, over the real numbers. *)
Definition two_donors : similar R :=
  {| cloudy_similar := [[53%R]; [54%R]];
     clear_similar := [[50%R]; [50%R]];
     rmse_similar := [0%R; 1%R];
     dis_similar := [3%R; 4%R] |}.

End Examples.

(* ================================================================== *)
(** ** The loop over the cloud codes *)

Section Codes.
Context {num : Type} {A : Arith num}.
Variables (rows cols bands : nat).
Variables (num_class min_pixel cloud_nbh DN_min DN_max : Z).
Variable clear : mat num.

Lemma In_insert_unique (x y : Z) (l : list Z) :
  In x (insert_unique y l) -> x = y \/ In x l.
Proof.
  induction l as [|z t IH]; simpl.
  - intros [H|[]]; auto.
  - destruct (y <? z)%Z.
    + simpl. intros [H|[H|H]]; auto.
    + destruct (y =? z)%Z.
      * simpl. intros [H|H]; auto.
      * simpl. intros [H|H]; auto. destruct (IH H); auto.
Qed.

Lemma In_unique (x : Z) (v : list Z) : In x (unique v) -> In x v.
Proof.
  induction v as [|y t IH]; simpl; auto.
  intros H. destruct (In_insert_unique _ _ _ H); auto.
Qed.

Lemma cloud_codes_spec (cloud_mask : list Z) (c : Z) :
  In c (cloud_codes cloud_mask) -> In c cloud_mask /\ (1 <= c)%Z.
Proof.
  unfold cloud_codes. rewrite filter_In. intros [H1 H2].
  split; [apply In_unique; exact H1 | apply Z.leb_le; exact H2].
Qed.

Lemma cloud_codes_empty (cloud_mask : list Z) :
  Forall (fun v => v = 0%Z \/ v = (-1)%Z) cloud_mask ->
  cloud_codes cloud_mask = [].
Proof.
  intros Hm. destruct (cloud_codes cloud_mask) as [|c t] eqn:E; auto.
  assert (Hc : In c (cloud_codes cloud_mask)) by (rewrite E; left; reflexivity).
  apply cloud_codes_spec in Hc. destruct Hc as [Hin Hge].
  rewrite Forall_forall in Hm. destruct (Hm c Hin); lia.
Qed.

(** C10. Idempotence on an empty mask: when every cell of the mask is 0
    or -1 there is no cloud code, the loop over the codes does not run, and
    the routine returns the cloudy image it was given, in every cell and
    band. *)
Theorem cloud_fill_empty_mask (cloud_mask : list Z) (cloudy : mat num) :
  Forall (fun v => v = 0%Z \/ v = (-1)%Z) cloud_mask ->
  cloud_fill rows cols bands num_class min_pixel cloud_nbh DN_min DN_max
    clear cloud_mask cloudy = Some cloudy.
Proof.
  intros Hm. unfold cloud_fill. rewrite (cloud_codes_empty Hm). reflexivity.
Qed.

End Codes.

Lemma cloud_fill_empty_mask_witness :
  Forall (fun v => v = 0%Z \/ v = (-1)%Z) [0; -1; 0; 0]%Z
  /\ cloud_fill (A := binary64) 2 2 1 1 2 1 0 255
       Examples.full_clear [0; -1; 0; 0]%Z Examples.full_cloudy
     = Some Examples.full_cloudy.
Proof.
  assert (H : Forall (fun v => v = 0%Z \/ v = (-1)%Z) [0; -1; 0; 0]%Z).
  { repeat (apply Forall_cons; [ (left; reflexivity) || (right; reflexivity) | ]).
    apply Forall_nil. }
  split; [exact H | exact (cloud_fill_empty_mask 2 2 1 1 2 1 0 255 Examples.full_clear Examples.full_cloudy H)].
Defined.

(* ================================================================== *)
(** ** The similar-pixel search *)

Section SearchFacts.
Context {num : Type} {A : Arith num}.
Variable bands : nat.
Variable min_pixel : Z.
Variable similar_th_band : row num.
Variables sub_clear_clear sub_cloudy_clear : mat num.
Variable target : row num.
Variable clear_dists : list num.

Let loop := similar_loop bands min_pixel similar_th_band sub_clear_clear
              sub_cloudy_clear target clear_dists.
Let walk' := walk bands min_pixel similar_th_band sub_clear_clear
               sub_cloudy_clear target clear_dists.

Lemma skipn_nth_cons {T : Type} (d : T) (l : list T) (i : nat) :
  i < length l -> skipn i l = nth i l d :: skipn (S i) l.
Proof.
  revert i. induction l as [|x t IH]; intros i Hi; simpl in Hi; [lia|].
  destruct i as [|i]; [reflexivity|].
  simpl. apply IH. lia.
Qed.

(** From a counter [iclear >= 1] on, the [while] loop is the walk over the
    entries of [order_clear] from position [iclear]; [length order_clear]
    turns of fuel are never used up. *)
Lemma similar_loop_walk (order_clear : list nat) (fuel iclear num_similar : nat)
    (s : similar num) :
  1 <= iclear -> length order_clear - iclear <= fuel ->
  loop order_clear fuel iclear num_similar s
  = walk' (skipn iclear order_clear) num_similar s.
Proof.
  subst loop walk'. revert iclear num_similar s.
  induction fuel as [|fuel IH]; intros i n s Hi Hf.
  - rewrite skipn_all2 by lia. reflexivity.
  - simpl. destruct (i <=? length order_clear - 1) eqn:E.
    + apply Nat.leb_le in E.
      rewrite (skipn_nth_cons 0 order_clear (i := i)) by lia. simpl.
      destruct (Z.of_nat n <=? min_pixel - 1)%Z; simpl; [|reflexivity].
      destruct (indicate_similar similar_th_band sub_clear_clear target
                  (nth i order_clear 0) =? bands);
        apply IH; lia.
    + apply Nat.leb_gt in E. rewrite skipn_all2 by lia.
      rewrite andb_false_r. reflexivity.
Qed.

End SearchFacts.

(** The search visits the candidates from position 2 of the sorted order
    on: position 0 is cut off at line 123 and the counter starts at 1. *)
Lemma find_similar_walk {num : Type} {A : Arith num} (bands : nat) (min_pixel : Z)
    (similar_th_band : row num) (sub_clear_clear sub_cloudy_clear : mat num)
    (sub_clear_row_i sub_clear_col_i : list nat) (target : row num) (ri ci : nat) :
  find_similar bands min_pixel similar_th_band sub_clear_clear sub_cloudy_clear
    sub_clear_row_i sub_clear_col_i target ri ci
  = let dists := clear_dists_of sub_clear_row_i sub_clear_col_i ri ci in
    let sorted := sort_index dists in
    if length sorted <=? 1 then None
    else if (min_pixel <? 0)%Z then None
    else Some (walk bands min_pixel similar_th_band sub_clear_clear
                 sub_cloudy_clear target dists (skipn 2 sorted) 0 no_similar).
Proof.
  unfold find_similar. cbv zeta.
  destruct (length _ <=? 1); [reflexivity|].
  destruct (min_pixel <? 0)%Z; [reflexivity|].
  f_equal. rewrite similar_loop_walk by lia.
  destruct (sort_index _) as [|x t]; reflexivity.
Qed.

Lemma walk_filled {num : Type} {A : Arith num} (bands : nat) (min_pixel : Z)
    (th : row num) (scc scyc : mat num) (target : row num) (dists : list num)
    (visited : list nat) :
  forall (n : nat) (s : similar num),
    filled n s ->
    filled (fst (walk bands min_pixel th scc scyc target dists visited n s))
           (snd (walk bands min_pixel th scc scyc target dists visited n s)).
Proof.
  induction visited as [|k rest IH]; intros n s Hs; simpl; [exact Hs|].
  destruct (Z.of_nat n <=? min_pixel - 1)%Z; [|exact Hs].
  destruct (indicate_similar th scc target k =? bands); [|apply IH; exact Hs].
  apply IH. destruct Hs as (H1 & H2 & H3 & H4).
  unfold filled, accept; simpl. rewrite !length_app; simpl.
  repeat split; lia.
Qed.

Lemma find_similar_filled {num : Type} {A : Arith num} (bands : nat) (min_pixel : Z)
    (th : row num) (scc scyc : mat num) (rs cs : list nat) (target : row num)
    (ri ci n : nat) (s : similar num) :
  find_similar bands min_pixel th scc scyc rs cs target ri ci = Some (n, s) ->
  filled n s.
Proof.
  rewrite find_similar_walk. cbv zeta.
  destruct (length _ <=? 1); [discriminate|].
  destruct (min_pixel <? 0)%Z; [discriminate|].
  intros H. injection H as H.
  pose proof (f_equal fst H) as H1. pose proof (f_equal snd H) as H2.
  cbn [fst snd] in H1, H2. rewrite <- H1, <- H2.
  apply walk_filled. repeat split.
Qed.

(* ================================================================== *)
(** ** The donor weights in real arithmetic *)

Section RealWeights.
Local Open Scope R_scope.

Lemma Rltb_spec (x y : R) : if Rltb x y then x < y else y <= x.
Proof. unfold Rltb. destruct (Rlt_dec x y); lra. Qed.

Lemma Rleb_spec (x y : R) : if Rleb x y then x <= y else y < x.
Proof. unfold Rleb. destruct (Rle_dec x y); lra. Qed.

Lemma scan_min_le (t : list R) :
  forall m, fold_left (fun m x => if Rltb x m then x else m) t m <= m
            /\ forall x, In x t ->
                 fold_left (fun m x => if Rltb x m then x else m) t m <= x.
Proof.
  induction t as [|y t IH]; intros m; simpl.
  - split; [lra | intros x []].
  - pose proof (Rltb_spec y m) as H. destruct (Rltb y m).
    + destruct (IH y) as [I1 I2]. split; [lra|].
      intros x [<-|Hx]; [exact I1 | exact (I2 x Hx)].
    + destruct (IH m) as [I1 I2]. split; [lra|].
      intros x [<-|Hx]; [lra | exact (I2 x Hx)].
Qed.

Lemma scan_max_ge (t : list R) :
  forall m, m <= fold_left (fun m x => if Rltb m x then x else m) t m
            /\ forall x, In x t ->
                 x <= fold_left (fun m x => if Rltb m x then x else m) t m.
Proof.
  induction t as [|y t IH]; intros m; simpl.
  - split; [lra | intros x []].
  - pose proof (Rltb_spec m y) as H. destruct (Rltb m y).
    + destruct (IH y) as [I1 I2]. split; [lra|].
      intros x [<-|Hx]; [exact I1 | exact (I2 x Hx)].
    + destruct (IH m) as [I1 I2]. split; [lra|].
      intros x [<-|Hx]; [lra | exact (I2 x Hx)].
Qed.

Lemma vmin_le (l : list R) (x : R) : In x l -> vmin (A := real) l <= x.
Proof.
  destruct l as [|y t]; [intros []|].
  unfold vmin; simpl. destruct (scan_min_le t y) as [I1 I2].
  intros [<-|Hx]; [exact I1 | exact (I2 x Hx)].
Qed.

Lemma vmax_ge (l : list R) (x : R) : In x l -> x <= vmax (A := real) l.
Proof.
  destruct l as [|y t]; [intros []|].
  unfold vmax; simpl. destruct (scan_max_ge t y) as [I1 I2].
  intros [<-|Hx]; [exact I1 | exact (I2 x Hx)].
Qed.

(** Min-max scaling puts every score at 1 or above. *)
Lemma normalise_ge_1 (v : list R) (y : R) :
  In y (normalise (A := real) v) -> 1 <= y.
Proof.
  unfold normalise. rewrite in_map_iff. intros (x & <- & Hx).
  pose proof (vmin_le v x Hx) as Hmin. pose proof (vmax_ge v x Hx) as Hmax.
  unfold eps6; cbn [nadd nsub ndiv of_Z real].
  assert (Hd : 0 < vmax (A := real) v - vmin (A := real) v + 1 / 1000000) by lra.
  assert (0 <= (x - vmin (A := real) v)
               / (vmax (A := real) v - vmin (A := real) v + 1 / 1000000)).
  { apply Rmult_le_pos; [lra|]. left. apply Rinv_0_lt_compat. exact Hd. }
  lra.
Qed.

Lemma C_D_pos (rmse dis : list R) (c : R) :
  In c (C_D (A := real) rmse dis) -> 0 < c.
Proof.
  unfold C_D, map2. rewrite in_map_iff. intros ([a b] & <- & Hab).
  pose proof (normalise_ge_1 _ _ (in_combine_l _ _ _ _ Hab)) as Ha.
  pose proof (normalise_ge_1 _ _ (in_combine_r _ _ _ _ Hab)) as Hb.
  unfold eps7; cbn [nadd nmul ndiv of_Z real fst snd]. nra.
Qed.

Lemma vsum_shift (l : list R) (a : R) :
  fold_left Rplus l a = a + fold_left Rplus l 0.
Proof.
  revert a. induction l as [|x t IH]; intros a; simpl; [lra|].
  rewrite (IH (a + x)), (IH (0 + x)). lra.
Qed.

Lemma vsum_cons (x : R) (l : list R) :
  vsum (A := real) (x :: l) = x + vsum (A := real) l.
Proof.
  unfold vsum; cbn [nadd of_Z real fold_left]. rewrite vsum_shift. lra.
Qed.

Lemma vsum_pos (l : list R) :
  l <> [] -> (forall x, In x l -> 0 < x) -> 0 < vsum (A := real) l.
Proof.
  induction l as [|x t IH]; intros Hne Hpos; [congruence|].
  rewrite vsum_cons. pose proof (Hpos x (or_introl eq_refl)) as Hx.
  destruct t as [|y t'].
  - unfold vsum; cbn [nadd of_Z real fold_left]. lra.
  - assert (0 < vsum (A := real) (y :: t')).
    { apply IH; [discriminate|]. intros z Hz. apply Hpos. right. exact Hz. }
    lra.
Qed.

Lemma vsum_scale (l : list R) (k : R) :
  vsum (A := real) (map (fun x => x / k) l) = vsum (A := real) l / k.
Proof.
  induction l as [|x t IH].
  - unfold vsum; cbn [nadd of_Z real fold_left map]. lra.
  - cbn [map]. rewrite !vsum_cons, IH. lra.
Qed.

(** The weights of line 159 over the real numbers, for any two lists of
    scores of one length that are not empty. *)
Lemma weight_normalised (rmse dis : list R) :
  length rmse = length dis -> (0 < length rmse)%nat ->
  Forall (fun w => 0 < w) (weight (A := real) rmse dis)
  /\ vsum (A := real) (weight (A := real) rmse dis) = 1
  /\ length (weight (A := real) rmse dis) = length rmse.
Proof.
  intros Hlen Hn.
  unfold weight. cbv zeta. cbn [ndiv of_Z real].
  set (inv := map (fun c => 1 / c) (C_D (A := real) rmse dis)).
  assert (Hinv : forall x, In x inv -> 0 < x).
  { subst inv. intros x Hx. apply in_map_iff in Hx. destruct Hx as (c & <- & Hc).
    apply C_D_pos in Hc. apply Rdiv_lt_0_compat; lra. }
  assert (Hl : length inv = length rmse).
  { subst inv. unfold C_D, map2, normalise.
    rewrite !length_map, length_combine, !length_map. lia. }
  assert (Hne : inv <> []).
  { intros E. rewrite E in Hl. simpl in Hl. lia. }
  pose proof (vsum_pos Hne Hinv) as HS.
  split; [|split].
  - apply Forall_forall. intros w Hw. apply in_map_iff in Hw.
    destruct Hw as (x & <- & Hx). apply Rdiv_lt_0_compat; auto.
  - rewrite vsum_scale. field. lra.
  - rewrite length_map. exact Hl.
Qed.

(** C9. Weight normalisation: for a pixel on the [num_similar > 1] path,
    whose arrays [rmse_similar] and [dis_similar] hold one score per similar
    pixel found, the donor weights [w_i = (1 / C_D_i) / sum_j (1 / C_D_j)]
    of line 159, with [C_D] the product of the two normalised scores plus
    1e-7, are one per donor, all strictly positive, and sum to 1 exactly, in
    real arithmetic. *)
Theorem donor_weights_normalised (num_similar : nat) (s : similar R) :
  filled num_similar s -> (1 < num_similar)%nat ->
  Forall (fun w => 0 < w) (weight (A := real) (rmse_similar s) (dis_similar s))
  /\ vsum (A := real) (weight (A := real) (rmse_similar s) (dis_similar s)) = 1
  /\ length (weight (A := real) (rmse_similar s) (dis_similar s)) = num_similar.
Proof.
  intros (_ & _ & Hr & Hd) Hn.
  destruct (@weight_normalised (rmse_similar s) (dis_similar s)) as (W1 & W2 & W3);
    [congruence | lia |].
  repeat split; [exact W1 | exact W2 | congruence].
Qed.

(** The same for the outcome of the search of any pixel, as the routine
    runs it. *)
Corollary found_weights_normalised (bands : nat) (min_pixel : Z) (th : row R)
    (scc scyc : mat R) (rs cs : list nat) (target : row R) (ri ci : nat)
    (num_similar : nat) (s : similar R) :
  find_similar (A := real) bands min_pixel th scc scyc rs cs target ri ci
    = Some (num_similar, s) ->
  (1 < num_similar)%nat ->
  Forall (fun w => 0 < w) (weight (A := real) (rmse_similar s) (dis_similar s))
  /\ vsum (A := real) (weight (A := real) (rmse_similar s) (dis_similar s)) = 1.
Proof.
  intros Hf Hn. apply find_similar_filled in Hf. destruct Hf as (_ & _ & Hr & Hd).
  destruct (@weight_normalised (rmse_similar s) (dis_similar s)) as (W1 & W2 & _);
    [congruence | lia | split; assumption].
Qed.

End RealWeights.

Lemma donor_weights_normalised_witness :
  (filled 2 Examples.two_donors /\ 1 < 2)
  /\ (Forall (fun w => (0 < w)%R)
        (weight (A := real) (rmse_similar Examples.two_donors)
           (dis_similar Examples.two_donors))
      /\ vsum (A := real)
           (weight (A := real) (rmse_similar Examples.two_donors)
              (dis_similar Examples.two_donors)) = 1%R
      /\ length (weight (A := real) (rmse_similar Examples.two_donors)
                   (dis_similar Examples.two_donors)) = 2).
Proof.
  assert (F : filled 2 Examples.two_donors) by (repeat split).
  assert (L : 1 < 2) by lia.
  split; [split; [exact F | exact L] | exact (donor_weights_normalised F L)].
Defined.

(* ================================================================== *)
(** ** The routine on the concrete images *)

Section Runs.
Import Examples.

(** C1. Non-interference does not hold of the routine. On the six-pixel
    strip (cloud pixel at column 3, [min_pixel = 2], [cloud_nbh = 3]) the
    loop's only turn has [ic = 0] and writes row 0 of the neighbourhood: the
    returned image holds 13 at column 0, a cell whose mask value is 0 and
    whose input value is 10. *)
Theorem clear_cell_overwritten :
  cloud_fill (A := binary64) 1 6 1 1 2 3 0 255 strip_clear strip_mask strip_cloudy
    = Some (px [13; 20; 30; 99; 53; 66]%Z)
  /\ nth 0 strip_mask 7%Z = 0%Z
  /\ nth 0 strip_cloudy [] = [float_of_Z 10].
Proof.
  split; [|split]; vm_compute; reflexivity.
Qed.

(** C2. The cloud pixel does not receive its reconstructed value. On the
    same strip the cell at column 3 has mask value 1 and its value in the
    returned image is its input value 99, although the predictor run on
    that pixel's own clear spectrum (one similar pixel, the fallback) gives
    43; the row the routine computes goes to column 0. *)
Theorem cloud_cell_keeps_input :
  nth 3 strip_mask 0%Z = 1%Z
  /\ option_map (fun out => nth 3 out [])
       (cloud_fill (A := binary64) 1 6 1 1 2 3 0 255 strip_clear strip_mask strip_cloudy)
     = Some (nth 3 strip_cloudy [])
  /\ nth 3 strip_cloudy [] = [float_of_Z 99]
  /\ option_map
       (predict (A := binary64) 1 0 255
          (r2_of (A := binary64) (x_center strip_w) (y_center strip_w) 0 3)
          (nth 3 strip_clear [])
          (mean_diff 1 strip_mask strip_clear strip_cloudy))
       (find_similar (A := binary64) 1 2 (similar_th_band 1 1 strip_clear)
          (sub_clear_clear strip_mask strip_clear)
          (sub_cloudy_clear strip_mask strip_cloudy)
          (sub_clear_row_i strip_w strip_mask) (sub_clear_col_i strip_w strip_mask)
          (nth 3 strip_clear []) 0 3)
     = Some [float_of_Z 43].
Proof.
  split; [|split; [|split]]; vm_compute; reflexivity.
Qed.

(** C3. The walk discards two candidates, not one. On the eight-pixel
    strip with the cloud pixel at column 0 the seven clear pixels lie at
    distances 1 to 7 and all pass the similarity test; with [min_pixel = 2]
    the two pixels accepted are those at distances 3 and 4: the second
    nearest (candidate 1, at distance 2) passes the test and is never
    visited. *)
Theorem second_nearest_skipped :
  clear_dists_of (A := binary64) (sub_clear_row_i row8_w row8_mask)
    (sub_clear_col_i row8_w row8_mask) 0 0
    = map float_of_Z [1; 2; 3; 4; 5; 6; 7]%Z
  /\ sort_index (A := binary64) (map float_of_Z [1; 2; 3; 4; 5; 6; 7]%Z)
     = [0; 1; 2; 3; 4; 5; 6]
  /\ indicate_similar (A := binary64) (similar_th_band 1 1 row8_clear)
       (sub_clear_clear row8_mask row8_clear) (nth 0 row8_clear []) 1 = 1
  /\ found_at (A := binary64) 1 1 2 1 row8_w row8_mask row8_clear row8_cloudy 0
     = Some (2, {| cloudy_similar := px [53; 54]%Z;
                   clear_similar := px [50; 50]%Z;
                   rmse_similar := map float_of_Z [0; 0]%Z;
                   dis_similar := map float_of_Z [3; 4]%Z |}).
Proof.
  split; [|split; [|split]]; vm_compute; reflexivity.
Qed.

(** C4. A neighbourhood without a clear pixel is fatal. On the 2 x 2 image
    that is one cloud no cell of the neighbourhood has mask value 0, and the
    routine throws instead of returning an image. *)
Theorem no_clear_pixel_throws :
  region_window 2 2 1 full_mask 1
    = Some {| up_row := 0; left_col := 0; down_row := 1; right_col := 1 |}
  /\ sub_clear_vec_i
       (sub_block 2 0%Z {| up_row := 0; left_col := 0; down_row := 1; right_col := 1 |}
          full_mask) = []
  /\ cloud_fill (A := binary64) 2 2 1 1 2 1 0 255 full_clear full_mask full_cloudy
     = None.
Proof.
  split; [|split]; vm_compute; reflexivity.
Qed.

(** C6. [r2] is not the distance to the centre (rows/2, cols/2). On the
    eight-pixel strip with the cloud pixel at row 0, column 3, the
    neighbourhood has 1 row and 8 columns, so [x_center = 4] and
    [y_center = 0.5]; the pixel takes the [num_similar > 1] path with
    [r2 = sqrt ((4 - 0)^2 + (0.5 - 3)^2) = sqrt (89/4)], while its distance
    to (0.5, 4) is [sqrt (5/4)]. *)
Theorem r2_swaps_centre :
  region_window 1 8 4 mid_mask 1 = Some row8_w
  /\ (ri_of 1 row8_w mid_mask 0, ci_of 1 row8_w mid_mask 0) = (0, 3)
  /\ option_map fst
       (found_at (A := binary64) 1 1 2 1 row8_w mid_mask mid_clear mid_cloudy 0)
     = Some 2
  /\ (x_center (A := binary64) row8_w, y_center (A := binary64) row8_w)
     = (float_of_Z 4, PrimFloat.div (float_of_Z 1) (float_of_Z 2))
  /\ r2_of (A := binary64) (x_center row8_w) (y_center row8_w) 0 3
     = PrimFloat.sqrt (PrimFloat.div (float_of_Z 89) (float_of_Z 4))
  /\ r2_of (A := binary64) (y_center row8_w) (x_center row8_w) 0 3
     = PrimFloat.sqrt (PrimFloat.div (float_of_Z 5) (float_of_Z 4))
  /\ PrimFloat.ltb (PrimFloat.sqrt (PrimFloat.div (float_of_Z 5) (float_of_Z 4)))
       (PrimFloat.sqrt (PrimFloat.div (float_of_Z 89) (float_of_Z 4))) = true.
Proof.
  repeat (split; [vm_compute; reflexivity|]). vm_compute; reflexivity.
Qed.

(** C7. The fallback does not use the obscured pixel's spectrum. On the
    six-pixel strip the cloud pixel is the cell at position 3 of the
    neighbourhood (clear value 40); its search finds one similar pixel, so
    the fallback runs, and the row computed is row 0 of [sub_clear] plus
    [mean_diff], 10 + 3, written at row 0; the pixel's own spectrum plus
    [mean_diff] is 43, and the returned image holds 99 at the pixel. *)
Theorem fallback_uses_row_ic :
  sub_cloud_vec_i 1 strip_mask = [3]
  /\ option_map fst
       (found_at (A := binary64) 1 1 2 1 strip_w strip_mask strip_clear strip_cloudy 0)
     = Some 1
  /\ mean_diff (A := binary64) 1 strip_mask strip_clear strip_cloudy = [float_of_Z 3]
  /\ fill_pixel (A := binary64) 1 1 2 0 255 1 strip_w strip_mask strip_clear
       strip_cloudy 0
     = Some (fallback (A := binary64) (nth 0 strip_clear [])
               (mean_diff 1 strip_mask strip_clear strip_cloudy))
  /\ fallback (A := binary64) (nth 0 strip_clear [])
       (mean_diff 1 strip_mask strip_clear strip_cloudy) = [float_of_Z 13]
  /\ fallback (A := binary64) (nth 3 strip_clear [])
       (mean_diff 1 strip_mask strip_clear strip_cloudy) = [float_of_Z 43]
  /\ fill_sub (A := binary64) 1 1 2 0 255 1 strip_w strip_mask strip_clear strip_cloudy
     = Some (px [13; 20; 30; 99; 53; 66]%Z).
Proof.
  repeat (split; [vm_compute; reflexivity|]). vm_compute; reflexivity.
Qed.

(** C8. The similarity test is not taken against the obscured pixel's
    spectrum. On the six-pixel strip with the bright first pixel
    ([num_class = 2], threshold about 24.8) the candidate visited is
    candidate 0, the pixel at column 0 with clear value 90. Against the
    cloud pixel's own clear value 40 its difference 50 exceeds the threshold
    and the candidate fails in the one band; the routine compares it with
    row 0 of [sub_clear], which is the candidate itself, and accepts it. *)
Theorem similarity_reference_is_row_ic :
  sub_cloud_vec_i 1 strip_mask = [3]
  /\ sort_index (A := binary64)
       (clear_dists_of (sub_clear_row_i strip_w strip_mask)
          (sub_clear_col_i strip_w strip_mask) 0 3) = [1; 2; 0]
  /\ PrimFloat.ltb (nth 0 (similar_th_band (A := binary64) 1 2 bright_clear) (float_of_Z 0))
       (float_of_Z 25) = true
  /\ indicate_similar (A := binary64) (similar_th_band 1 2 bright_clear)
       (sub_clear_clear strip_mask bright_clear) (nth 3 bright_clear []) 0 = 0
  /\ indicate_similar (A := binary64) (similar_th_band 1 2 bright_clear)
       (sub_clear_clear strip_mask bright_clear) (nth 0 bright_clear []) 0 = 1
  /\ found_at (A := binary64) 1 2 2 1 strip_w strip_mask bright_clear strip_cloudy 0
     = Some (1, {| cloudy_similar := px [10]%Z;
                   clear_similar := px [90]%Z;
                   rmse_similar := map float_of_Z [0]%Z;
                   dis_similar := map float_of_Z [3]%Z |}).
Proof.
  repeat (split; [vm_compute; reflexivity|]). vm_compute; reflexivity.
Qed.

End Runs.

(* ================================================================== *)
(** ** Neighbourhoods: what a region's fill reads and writes *)

Section WindowFacts.
Variable rows : nat.

Lemma nth_map_seq {T : Type} (f : nat -> T) (n p : nat) (d : T) :
  p < n -> nth p (map f (seq 0 n)) d = f p.
Proof.
  intros Hp. rewrite (nth_indep _ d (f 0)) by (rewrite length_map, length_seq; exact Hp).
  rewrite map_nth, seq_nth by exact Hp. reflexivity.
Qed.

Lemma rows_decode (r c : nat) :
  r < rows -> (r + rows * c) mod rows = r /\ (r + rows * c) / rows = c.
Proof.
  intros Hr. rewrite (Nat.mul_comm rows c). split.
  - rewrite Nat.Div0.mod_add. apply Nat.mod_small. exact Hr.
  - rewrite Nat.div_add by lia. rewrite (Nat.div_small r rows Hr). reflexivity.
Qed.

(** Every cell of the block cut out of an image lies in the neighbourhood,
    at the position it has in the block. *)
Lemma pixel_at_in_window (w : window) (k : nat) :
  window_ok rows w -> k < num_sub_rows w * num_sub_cols w ->
  in_window rows w (pixel_at rows w k) = true
  /\ sub_index rows w (pixel_at rows w k) = k.
Proof.
  intros (Hu & Hd & Hl) Hk.
  unfold pixel_at, sub_index, in_window, num_sub_rows, num_sub_cols in *.
  set (nsr := Z.to_nat (down_row w - up_row w + 1)) in *.
  set (nsc := Z.to_nat (right_col w - left_col w + 1)) in *.
  assert (Hnsr : 0 < nsr) by (subst nsr; lia).
  assert (Ha : k mod nsr < nsr) by (apply Nat.mod_upper_bound; lia).
  assert (Hb : k / nsr < nsc) by (apply Nat.Div0.div_lt_upper_bound; exact Hk).
  assert (Hr : Z.to_nat (up_row w) + k mod nsr < rows) by (subst nsr; lia).
  destruct (rows_decode (Z.to_nat (left_col w) + k / nsr) Hr) as [E1 E2].
  rewrite E1, E2. split.
  - repeat (apply andb_true_intro; split); apply Z.leb_le; subst nsr nsc; lia.
  - pose proof (Nat.div_mod_eq k nsr). lia.
Qed.

Lemma windows_disjoint_cells (w1 w2 : window) (p : nat) :
  windows_disjoint w1 w2 = true -> in_window rows w1 p = true ->
  in_window rows w2 p = false.
Proof.
  unfold windows_disjoint, in_window. intros Hd H1.
  apply andb_prop in H1 as [H1 H1d]. apply andb_prop in H1 as [H1 H1c].
  apply andb_prop in H1 as [H1a H1b].
  apply Z.leb_le in H1a, H1b, H1c, H1d.
  apply orb_prop in Hd as [Hd|Hd]; [apply orb_prop in Hd as [Hd|Hd];
    [apply orb_prop in Hd as [Hd|Hd]|]|]; apply Z.ltb_lt in Hd.
  all: apply not_true_is_false; intros H2;
    apply andb_prop in H2 as [H2 H2d]; apply andb_prop in H2 as [H2 H2c];
    apply andb_prop in H2 as [H2a H2b];
    apply Z.leb_le in H2a, H2b, H2c, H2d; lia.
Qed.

Lemma windows_disjoint_sym (w1 w2 : window) :
  windows_disjoint w1 w2 = windows_disjoint w2 w1.
Proof.
  unfold windows_disjoint.
  destruct (right_col w1 <? left_col w2)%Z, (right_col w2 <? left_col w1)%Z,
    (down_row w1 <? up_row w2)%Z, (down_row w2 <? up_row w1)%Z; reflexivity.
Qed.

(** The block cut out of an image depends on the cells of the
    neighbourhood only. *)
Lemma sub_block_ext {T : Type} (d : T) (w : window) (a b : list T) :
  window_ok rows w ->
  (forall p, in_window rows w p = true -> nth p a d = nth p b d) ->
  sub_block rows d w a = sub_block rows d w b.
Proof.
  intros Hw H. unfold sub_block. apply map_ext_in. intros k Hk.
  apply in_seq in Hk. apply H.
  apply (pixel_at_in_window (w := w) (k := k)); [exact Hw | lia].
Qed.

Section WriteBack.
Context {num : Type}.

Lemma length_write_back (w : window) (sub cloudy : mat num) :
  length (write_back rows w sub cloudy) = length cloudy.
Proof. unfold write_back. rewrite length_map, length_seq. reflexivity. Qed.

Lemma nth_write_back (w : window) (sub cloudy : mat num) (p : nat) :
  p < length cloudy ->
  nth p (write_back rows w sub cloudy) []
  = if in_window rows w p then nth (sub_index rows w p) sub [] else nth p cloudy [].
Proof. intros Hp. unfold write_back. rewrite nth_map_seq by exact Hp. reflexivity. Qed.

(** The write-back leaves every cell outside the neighbourhood as it was. *)
Lemma nth_write_back_outside (w : window) (sub cloudy : mat num) (p : nat) :
  in_window rows w p = false ->
  nth p (write_back rows w sub cloudy) [] = nth p cloudy [].
Proof.
  intros Hp. destruct (Nat.lt_ge_cases p (length cloudy)) as [H|H].
  - rewrite nth_write_back by exact H. rewrite Hp. reflexivity.
  - rewrite !nth_overflow; [reflexivity | exact H | rewrite length_write_back; exact H].
Qed.

Lemma sub_block_write_back (w1 w2 : window) (sub cloudy : mat num) :
  window_ok rows w1 -> windows_disjoint w1 w2 = true ->
  sub_block rows [] w1 (write_back rows w2 sub cloudy) = sub_block rows [] w1 cloudy.
Proof.
  intros Hw Hd. apply sub_block_ext; [exact Hw|].
  intros p Hp. apply nth_write_back_outside.
  apply (windows_disjoint_cells _ _ _ Hd Hp).
Qed.

Lemma write_back_comm (w1 w2 : window) (s1 s2 cloudy : mat num) :
  windows_disjoint w1 w2 = true ->
  write_back rows w1 s1 (write_back rows w2 s2 cloudy)
  = write_back rows w2 s2 (write_back rows w1 s1 cloudy).
Proof.
  intros Hd. unfold write_back at 1 3. rewrite !length_write_back.
  apply map_ext_in. intros p Hp. apply in_seq in Hp.
  rewrite !nth_write_back by lia.
  destruct (in_window rows w1 p) eqn:E1; [|reflexivity].
  rewrite (windows_disjoint_cells _ _ _ Hd E1). reflexivity.
Qed.

End WriteBack.
End WindowFacts.

Section FindFacts.
Context {T : Type}.
Variable f : T -> bool.
Variable d : T.

Lemma In_find_from (v : list T) :
  forall i p, In p (find_from f i v)
              <-> i <= p < i + length v /\ f (nth (p - i) v d) = true.
Proof.
  induction v as [|x t IH]; intros i p; simpl.
  - split; [intros [] | intros [H _]; lia].
  - assert (Hs : forall q, In q (find_from f (S i) t)
                           <-> i <= q < i + S (length t) /\ i <> q
                               /\ f (nth (q - S i) t d) = true).
    { intros q. rewrite IH. split; intros H; repeat split; try lia; apply H. }
    destruct (f x) eqn:E; simpl; rewrite Hs; split.
    + intros [<-|(H1 & H2 & H3)].
      * split; [lia|]. rewrite Nat.sub_diag. exact E.
      * split; [lia|]. destruct (p - i) as [|n] eqn:En; [lia|].
        replace n with (p - S i) by lia. exact H3.
    + intros (H1 & H2). destruct (Nat.eq_dec i p) as [->|Hne]; [left; reflexivity|].
      right. repeat split; try lia.
      destruct (p - i) as [|n] eqn:En; [lia|].
      replace (p - S i) with n by lia. exact H2.
    + intros (H1 & H2 & H3). split; [lia|].
      destruct (p - i) as [|n] eqn:En; [lia|].
      replace n with (p - S i) by lia. exact H3.
    + intros (H1 & H2).
      destruct (p - i) as [|n] eqn:En.
      * assert (p = i) by lia. subst p. congruence.
      * repeat split; try lia. replace (p - S i) with n by lia. exact H2.
Qed.

Lemma In_find (v : list T) (p : nat) :
  In p (find f v) <-> p < length v /\ f (nth p v d) = true.
Proof.
  unfold find. rewrite In_find_from. rewrite Nat.sub_0_r. simpl.
  split; intros [H1 H2]; (split; [lia | exact H2]).
Qed.

End FindFacts.


Lemma umin_le (l : list nat) (x : nat) : In x l -> umin l <= x.
Proof.
  unfold umin. generalize (hd 0 l). induction l as [|y t IH]; intros m; simpl.
  - intros [].
  - intros [<-|Hx]; [lia|]. specialize (IH m Hx). lia.
Qed.

Lemma umax_ge (l : list nat) (x : nat) : In x l -> x <= umax l.
Proof.
  unfold umax. generalize (hd 0 l). induction l as [|y t IH]; intros m; simpl.
  - intros [].
  - intros [<-|Hx]; [lia|]. specialize (IH m Hx). lia.
Qed.

Section RegionWindow.
Variables (rows cols : nat) (cloud_nbh : Z) (cloud_mask : list Z).

Lemma region_window_eq (code : Z) (w : window) :
  region_window rows cols cloud_nbh cloud_mask code = Some w ->
  w = window_of rows cols cloud_nbh (find (fun v => (v =? code)%Z) cloud_mask)
  /\ window_ok rows w.
Proof.
  unfold region_window. cbv zeta.
  destruct (negb (in_int code)); [discriminate|].
  destruct (length _ =? 0); [discriminate|].
  destruct (_ || _) eqn:E; [discriminate|].
  intros H. injection H as <-. split; [reflexivity|].
  apply orb_false_elim in E as [E1 E2].
  rewrite Z.gtb_ltb in E1, E2. apply Z.ltb_ge in E1, E2.
  revert E1 E2. unfold window_ok, window_of; simpl.
  repeat match goal with |- context [if ?c then _ else _] => destruct c eqn:? end;
    intros;
    repeat match goal with
           | H : (_ <? _)%Z = true |- _ => apply Z.ltb_lt in H
           | H : (_ <? _)%Z = false |- _ => apply Z.ltb_ge in H
           | H : (_ >? _)%Z = true |- _ => rewrite Z.gtb_ltb in H; apply Z.ltb_lt in H
           | H : (_ >? _)%Z = false |- _ => rewrite Z.gtb_ltb in H; apply Z.ltb_ge in H
           end; lia.
Qed.

End RegionWindow.

(* ================================================================== *)
(** ** Regions whose neighbourhoods do not overlap *)

Section Independence.
Context {num : Type} {A : Arith num}.
Variables (rows cols bands : nat).
Variables (num_class min_pixel cloud_nbh DN_min DN_max : Z).
Variable clear : mat num.

Local Abbreviation fillr :=
  (fill_region rows cols bands num_class min_pixel cloud_nbh DN_min DN_max clear).
Local Abbreviation fillrs :=
  (fill_regions rows cols bands num_class min_pixel cloud_nbh DN_min DN_max clear).
Local Abbreviation window_for := (region_window rows cols cloud_nbh).
Local Abbreviation apart := (regions_apart rows cols cloud_nbh).

(** A region's fill is a function of the blocks its neighbourhood cuts out
    of the mask and of the two images, written back over the
    neighbourhood. *)
Lemma fill_region_unfold (cloud_mask : list Z) (cloudy : mat num) (code : Z) (w : window) :
  window_for cloud_mask code = Some w ->
  fillr cloud_mask cloudy code
  = option_map (fun sub => write_back rows w sub cloudy)
      (fill_sub bands num_class min_pixel DN_min DN_max code w
         (sub_block rows 0%Z w cloud_mask) (sub_block rows [] w clear)
         (sub_block rows [] w cloudy)).
Proof.
  intros H. unfold fill_region. rewrite H.
  destruct (fill_sub _ _ _ _ _ _ _ _ _ _); reflexivity.
Qed.

Lemma fill_region_no_window (cloud_mask : list Z) (cloudy : mat num) (code : Z) :
  window_for cloud_mask code = None -> fillr cloud_mask cloudy code = None.
Proof.
  intros H. unfold fill_region. rewrite H. reflexivity.
Qed.

(** Frame: a region's fill keeps the size of the image and every cell
    outside the region's neighbourhood. *)
Lemma fill_region_frame (cloud_mask : list Z) (cloudy out : mat num) (code : Z) (w : window) :
  window_for cloud_mask code = Some w ->
  fillr cloud_mask cloudy code = Some out ->
  length out = length cloudy
  /\ forall p, in_window rows w p = false -> nth p out [] = nth p cloudy [].
Proof.
  intros Hw. rewrite (fill_region_unfold _ _ _ Hw).
  destruct (fill_sub _ _ _ _ _ _ _ _ _ _) as [sub|]; simpl; [|discriminate].
  intros H. injection H as <-. split.
  - apply length_write_back.
  - intros p Hp. apply nth_write_back_outside. exact Hp.
Qed.

(** Two fills over neighbourhoods that do not overlap commute. *)
Lemma fill_region_comm (cloud_mask : list Z) (cloudy : mat num) (a b : Z) :
  apart cloud_mask a b ->
  match fillr cloud_mask cloudy a with
  | Some c => fillr cloud_mask c b
  | None => None
  end
  = match fillr cloud_mask cloudy b with
    | Some c => fillr cloud_mask c a
    | None => None
    end.
Proof.
  unfold regions_apart.
  destruct (window_for cloud_mask a) as [wa|] eqn:Ea.
  2:{ intros _. rewrite (fill_region_no_window _ cloudy _ Ea).
      destruct (fillr cloud_mask cloudy b) as [c|]; [|reflexivity].
      rewrite (fill_region_no_window _ c _ Ea). reflexivity. }
  destruct (window_for cloud_mask b) as [wb|] eqn:Eb.
  2:{ intros _. rewrite (fill_region_no_window _ cloudy _ Eb).
      destruct (fillr cloud_mask cloudy a) as [c|]; [|reflexivity].
      rewrite (fill_region_no_window _ c _ Eb). reflexivity. }
  intros Hd.
  pose proof (proj2 (region_window_eq _ _ _ _ _ Ea)) as Oa.
  pose proof (proj2 (region_window_eq _ _ _ _ _ Eb)) as Ob.
  assert (Hd' : windows_disjoint wb wa = true) by (rewrite windows_disjoint_sym; exact Hd).
  rewrite (fill_region_unfold _ cloudy _ Ea), (fill_region_unfold _ cloudy _ Eb).
  destruct (fill_sub _ _ _ _ _ a _ _ _ _) as [sa|] eqn:Fa;
    destruct (fill_sub _ _ _ _ _ b _ _ _ _) as [sb|] eqn:Fb; simpl.
  - rewrite (fill_region_unfold _ _ _ Eb), (fill_region_unfold _ _ _ Ea).
    rewrite !sub_block_write_back by assumption.
    rewrite Fa, Fb. simpl. f_equal. symmetry. apply write_back_comm. exact Hd.
  - rewrite (fill_region_unfold _ _ _ Eb).
    rewrite sub_block_write_back by assumption. rewrite Fb. reflexivity.
  - rewrite (fill_region_unfold _ _ _ Ea).
    rewrite sub_block_write_back by assumption. rewrite Fa. reflexivity.
  - reflexivity.
Qed.

Lemma fill_regions_failed (cloud_mask : list Z) (codes : list Z) :
  fold_left (fun st code =>
               match st with
               | None => None
               | Some c => fillr cloud_mask c code
               end) codes None = None.
Proof. induction codes as [|x t IH]; simpl; [reflexivity | exact IH]. Qed.

Lemma fill_regions_cons (cloud_mask : list Z) (x : Z) (codes : list Z) (cloudy : mat num) :
  fillrs cloud_mask (x :: codes) cloudy
  = match fillr cloud_mask cloudy x with
    | Some c => fillrs cloud_mask codes c
    | None => None
    end.
Proof.
  unfold fill_regions. simpl.
  destruct (fill_region _ _ _ _ _ _ _ _ _ _ _ _) as [c|]; [reflexivity|].
  apply fill_regions_failed.
Qed.

(** The codes of regions with pairwise non-overlapping neighbourhoods can
    be processed in any order. *)
Lemma fill_regions_permutation (cloud_mask : list Z) (codes codes' : list Z) :
  Permutation codes codes' ->
  (forall x y, In x codes -> In y codes -> x <> y -> apart cloud_mask x y) ->
  forall cloudy, fillrs cloud_mask codes cloudy = fillrs cloud_mask codes' cloudy.
Proof.
  induction 1 as [|x l l' Hp IH|x y l|l l' l'' H1 IH1 H2 IH2]; intros Ha cloudy.
  - reflexivity.
  - rewrite !fill_regions_cons. destruct (fillr cloud_mask cloudy x) as [c|]; [|reflexivity].
    apply IH. intros u v Hu Hv. apply Ha; right; assumption.
  - rewrite !fill_regions_cons.
    destruct (Z.eq_dec x y) as [->|Hne]; [reflexivity|].
    assert (Hxy : apart cloud_mask y x).
    { apply Ha; [left; reflexivity | right; left; reflexivity | congruence]. }
    pose proof (fill_region_comm cloud_mask cloudy y x Hxy) as C.
    destruct (fillr cloud_mask cloudy y) as [c1|];
      destruct (fillr cloud_mask cloudy x) as [c2|];
      rewrite ?fill_regions_cons; rewrite ?C; try rewrite <- C; reflexivity.
  - rewrite IH1 by exact Ha. apply IH2.
    intros u v Hu Hv. apply Ha; eapply Permutation_in; try eassumption;
      apply Permutation_sym; exact H1.
Qed.




End Independence.

Section IndependenceRuns.
Import Examples.



(** The order of the regions matters where neighbourhoods overlap, through
    the row the pixel loop writes. On the strip of eight pixels with the
    cloud 1 at column 2 and the cloud 2 at column 5 ([min_pixel = 2],
    [cloud_nbh = 2]) the fill of cloud 2 writes row 0 of its neighbourhood,
    the cell at column 3, whose mask value is 0 and which the fill of
    cloud 1 reads as a clear pixel: filling 1 then 2 leaves 12 at column 0,
    filling 2 then 1 leaves 10.375. (Both clouds have their four clear
    pixels at the distances 1, 1, 2 and 2: the search leaves out the two at
    distance 1 and visits the two at distance 2, in whichever order.) *)
Lemma order_matters_where_windows_overlap :
  cloud_codes overlap_mask = [1; 2]%Z
  /\ fill_regions (A := binary64) 1 8 1 1 2 2 0 255 overlap_clear overlap_mask
       [1; 2]%Z overlap_cloudy
     = Some ([float_of_Z 12] :: [float_of_Z 20] :: [float_of_Z 99]
               :: [PrimFloat.div (float_of_Z 83) (float_of_Z 2)]
               :: px [50; 98; 68; 80]%Z)
  /\ fill_regions (A := binary64) 1 8 1 1 2 2 0 255 overlap_clear overlap_mask
       [2; 1]%Z overlap_cloudy
     = Some ([PrimFloat.div (float_of_Z 83) (float_of_Z 8)] :: [float_of_Z 20]
               :: [float_of_Z 99]
               :: [PrimFloat.div (float_of_Z 83) (float_of_Z 2)]
               :: px [50; 98; 68; 80]%Z).
Proof.
  split; [|split]; vm_compute; reflexivity.
Qed.

End IndependenceRuns.

(* ================================================================== *)
(** ** What the search and the predictor do with the row they are given *)

Section PixelFacts.
Context {num : Type} {A : Arith num}.

Lemma length_insert_sorted (x : num * nat) (l : list (num * nat)) :
  length (insert_sorted x l) = S (length l).
Proof.
  induction l as [|y t IH]; simpl; [reflexivity|].
  destruct (nltb (fst y) (fst x)); simpl; [rewrite IH|]; reflexivity.
Qed.

Lemma length_sort_index (v : list num) : length (sort_index v) = length v.
Proof.
  unfold sort_index. rewrite length_map.
  assert (H : forall l : list (num * nat),
             length (fold_right insert_sorted [] l) = length l).
  { induction l as [|x t IH]; simpl; [reflexivity|].
    rewrite length_insert_sorted, IH. reflexivity. }
  rewrite H, length_combine, length_seq. lia.
Qed.

(** With fewer than two clear pixels in the neighbourhood the search
    throws, whatever the target. *)
Lemma find_similar_few_clear (bands : nat) (min_pixel : Z) (th : row num)
    (scc scyc : mat num) (rs cs : list nat) (target : row num) (ri ci : nat) :
  length rs <= 1 ->
  find_similar bands min_pixel th scc scyc rs cs target ri ci = None.
Proof.
  intros H. unfold find_similar. cbv zeta.
  rewrite length_sort_index. unfold clear_dists_of, map2.
  rewrite length_map, length_combine.
  destruct (Nat.min (length rs) (length cs) <=? 1) eqn:E; [reflexivity|].
  apply Nat.leb_gt in E. lia.
Qed.

Lemma fill_steps_failed (bands : nat) (num_class min_pixel DN_min DN_max code : Z)
    (w : window) (m : list Z) (sub_clear sub0 : mat num) (ics : list nat) :
  fold_left (fill_step bands num_class min_pixel DN_min DN_max code w m sub_clear sub0)
    ics None = None.
Proof. induction ics as [|x t IH]; simpl; [reflexivity | exact IH]. Qed.

(** A cloud whose neighbourhood holds fewer than two clear pixels makes
    the fill of the neighbourhood throw at the first pixel. *)
Lemma fill_sub_few_clear (bands : nat) (num_class min_pixel DN_min DN_max code : Z)
    (w : window) (m : list Z) (sub_clear sub_cloudy : mat num) :
  length (sub_clear_vec_i m) <= 1 ->
  sub_cloud_vec_i code m <> [] ->
  fill_sub bands num_class min_pixel DN_min DN_max code w m sub_clear sub_cloudy = None.
Proof.
  intros Hc Hn. unfold fill_sub.
  destruct (sub_cloud_vec_i code m) as [|i t] eqn:E; [congruence|].
  cbn [length seq fold_left]. unfold fill_step at 2, fill_pixel, found_at.
  rewrite find_similar_few_clear.
  - apply fill_steps_failed.
  - unfold sub_clear_row_i. rewrite length_map. exact Hc.
Qed.

(** The test of line 133 is one-sided: a candidate passes in all bands
    exactly when, in every band, its clear value minus the value of the row
    it is compared to is at most the band's threshold. *)
Lemma indicate_similar_all_bands (bands : nat) (th : row num) (scc : mat num)
    (target : row num) (k : nat) :
  length (nth k scc []) = bands -> length target = bands -> length th = bands ->
  (indicate_similar th scc target k = bands
   <-> forall b, b < bands ->
         nleb (nsub (nth b (nth k scc []) (of_Z 0)) (nth b target (of_Z 0)))
              (nth b th (of_Z 0)) = true).
Proof.
  unfold indicate_similar, row_sub, map2.
  generalize (nth k scc []). intros cand. revert target th bands.
  induction cand as [|c cs IH]; intros [|t ts] [|h hs] bands Hc Ht Hh;
    simpl in *; subst bands; try discriminate.
  - split; [intros _ b Hb; lia | reflexivity].
  - assert (Hle : forall (l : list bool), length (filter (fun t : bool => t) l) <= length l).
    { induction l as [|x l IHl]; simpl; [lia|]. destruct x; simpl; lia. }
    injection Ht as Ht. injection Hh as Hh.
    specialize (IH ts hs (length cs) eq_refl Ht Hh).
    set (rest := map _ (combine (map _ (combine cs ts)) hs)) in *.
    assert (Hr : length rest = length cs).
    { subst rest. rewrite length_map, length_combine, length_map, length_combine. lia. }
    pose proof (Hle rest) as Hl.
    destruct (nleb (nsub c t) h) eqn:E; simpl.
    + split.
      * intros H b Hb. destruct b as [|b]; [exact E|].
        apply IH; [lia | lia].
      * intros H. f_equal. apply IH. intros b Hb. apply (H (S b)). lia.
    + split.
      * intros H. lia.
      * intros H. specialize (H 0 (Nat.lt_0_succ _)). simpl in H. congruence.
Qed.

Lemma nth_set_row_other (k j : nat) (r : row num) (m : mat num) :
  j <> k -> nth j (set_row k r m) [] = nth j m [].
Proof.
  revert k j. induction m as [|x t IH]; intros k j Hjk; simpl.
  - destruct k; reflexivity.
  - destruct k as [|k]; destruct j as [|j]; simpl; try reflexivity; try lia.
    apply IH. lia.
Qed.

(** The fill of a neighbourhood rewrites rows [0 .. k - 1] of [sub_cloudy],
    [k] being the number of pixels of the cloud, and no other row, wherever
    the cloud lies in the neighbourhood. *)
Lemma fill_sub_rows (bands : nat) (num_class min_pixel DN_min DN_max code : Z)
    (w : window) (m : list Z) (sub_clear sub_cloudy out : mat num) (j : nat) :
  fill_sub bands num_class min_pixel DN_min DN_max code w m sub_clear sub_cloudy
    = Some out ->
  length (sub_cloud_vec_i code m) <= j ->
  nth j out [] = nth j sub_cloudy [].
Proof.
  unfold fill_sub. generalize (length (sub_cloud_vec_i code m)). intros n.
  generalize sub_cloudy at 1 as s0. intros s0.
  assert (G : forall (n a : nat) (s : mat num),
             fold_left (fill_step bands num_class min_pixel DN_min DN_max code w m
                          sub_clear s0) (seq a n) (Some s) = Some out ->
             a + n <= j -> nth j out [] = nth j s []).
  { clear n. induction n as [|n IH]; intros a s; simpl.
    - intros H _. injection H as <-. reflexivity.
    - destruct (fill_pixel _ _ _ _ _ _ _ _ _ _ a) as [r|].
      + intros H Hj. rewrite (IH _ _ H) by lia. apply nth_set_row_other. lia.
      + rewrite fill_steps_failed. discriminate. }
  intros H Hj. apply (G n 0 sub_cloudy H). lia.
Qed.

(** With at most one similar pixel the new row is the row the search was
    given plus [mean_diff]; the blend runs from two similar pixels on. *)
Lemma predict_fallback (bands : nat) (DN_min DN_max : Z) (r2 : num)
    (target mean_diff : row num) (found : nat * similar num) :
  fst found <= 1 ->
  predict bands DN_min DN_max r2 target mean_diff found = row_add target mean_diff.
Proof.
  intros H. unfold predict, fallback.
  destruct (1 <? fst found) eqn:E; [apply Nat.ltb_lt in E; lia | reflexivity].
Qed.

Lemma predict_blend (bands : nat) (DN_min DN_max : Z) (r2 : num)
    (target mean_diff : row num) (found : nat * similar num) :
  1 < fst found ->
  predict bands DN_min DN_max r2 target mean_diff found
  = blend bands DN_min DN_max r2 target (snd found).
Proof.
  intros H. unfold predict. apply Nat.ltb_lt in H. rewrite H. reflexivity.
Qed.

End PixelFacts.

(* ================================================================== *)
(** ** Further properties of the routine *)

(** *** The cloud codes (lines 42-44) *)


Lemma insert_unique_In (x y : Z) (l : list Z) :
  In x (insert_unique y l) <-> x = y \/ In x l.
Proof.
  split; [apply In_insert_unique|].
  induction l as [|z t IH]; simpl.
  - intros [H|[]]; auto.
  - destruct (y <? z)%Z eqn:E1; [simpl; intros [H|[H|H]]; auto|].
    destruct (y =? z)%Z eqn:E2.
    + apply Z.eqb_eq in E2. subst z. simpl. intros [H|[H|H]]; auto.
    + simpl. intros [H|[H|H]]; auto.
Qed.

Lemma insert_unique_sorted (y : Z) (l : list Z) :
  StronglySorted Z.lt l -> StronglySorted Z.lt (insert_unique y l).
Proof.
  induction 1 as [|z t Hs IH Hz]; simpl.
  - repeat constructor.
  - destruct (y <? z)%Z eqn:E1.
    + apply Z.ltb_lt in E1. constructor; [constructor; assumption|].
      constructor; [exact E1|]. rewrite Forall_forall in *. intros u Hu.
      specialize (Hz u Hu). lia.
    + destruct (y =? z)%Z eqn:E2; [constructor; assumption|].
      apply Z.ltb_ge in E1. apply Z.eqb_neq in E2.
      constructor; [exact IH|]. rewrite Forall_forall in *. intros u Hu.
      apply insert_unique_In in Hu. destruct Hu as [->|Hu]; [lia | exact (Hz u Hu)].
Qed.

Lemma unique_In (x : Z) (v : list Z) : In x (unique v) <-> In x v.
Proof.
  induction v as [|y t IH]; simpl; [reflexivity|].
  rewrite insert_unique_In, IH. split; intros [H|H]; auto.
Qed.

Lemma unique_sorted (v : list Z) : StronglySorted Z.lt (unique v).
Proof.
  induction v as [|y t IH]; simpl; [constructor | apply insert_unique_sorted; exact IH].
Qed.

Lemma filter_sorted (f : Z -> bool) (l : list Z) :
  StronglySorted Z.lt l -> StronglySorted Z.lt (filter f l).
Proof.
  induction 1 as [|z t Hs IH Hz]; simpl; [constructor|].
  destruct (f z); [|exact IH].
  constructor; [exact IH|]. rewrite Forall_forall in *. intros u Hu.
  apply filter_In in Hu. apply Hz. apply Hu.
Qed.

(** X1. The cloud codes the routine loops over are exactly the values of
    the mask that are at least 1, each once, in strictly ascending order:
    0 and -1 are never codes, and a cloud is processed once however many
    cells it has. *)
Theorem cloud_codes_exact (cloud_mask : list Z) :
  (forall c, In c (cloud_codes cloud_mask) <-> In c cloud_mask /\ (1 <= c)%Z)
  /\ StronglySorted Z.lt (cloud_codes cloud_mask)
  /\ NoDup (cloud_codes cloud_mask).
Proof.
  assert (S : StronglySorted Z.lt (cloud_codes cloud_mask)).
  { unfold cloud_codes. apply filter_sorted, unique_sorted. }
  split; [|split; [exact S|]].
  - intros c. unfold cloud_codes. rewrite filter_In, unique_In, Z.leb_le. reflexivity.
  - induction S as [|z t Hs IH Hz]; constructor; [|exact IH].
    intros Hin. rewrite Forall_forall in Hz. specialize (Hz z Hin). lia.
Qed.

(** *** The neighbourhood of a cloud (lines 51-76) *)

Ltac split_ifs :=
  repeat match goal with |- context [if ?c then _ else _] => destruct c eqn:? end;
  repeat match goal with
         | H : (_ <? _)%Z = true |- _ => apply Z.ltb_lt in H
         | H : (_ <? _)%Z = false |- _ => apply Z.ltb_ge in H
         | H : (_ >? _)%Z = true |- _ => rewrite Z.gtb_ltb in H; apply Z.ltb_lt in H
         | H : (_ >? _)%Z = false |- _ => rewrite Z.gtb_ltb in H; apply Z.ltb_ge in H
         end.

Lemma in_window_bounds (rows : nat) (w : window) (p : nat) :
  in_window rows w p = true
  <-> (up_row w <= Z.of_nat (p mod rows) <= down_row w)%Z
      /\ (left_col w <= Z.of_nat (p / rows) <= right_col w)%Z.
Proof.
  unfold in_window. rewrite !andb_true_iff, !Z.leb_le. tauto.
Qed.

Lemma to_int_id (z : Z) : (int_min <= z <= int_max)%Z -> to_int z = z.
Proof.
  unfold int_min, int_max, to_int. intros H. rewrite Z.mod_small by lia. lia.
Qed.

Lemma umax_below (l : list nat) (b : nat) :
  0 < b -> (forall x, In x l -> x < b) -> umax l < b.
Proof.
  intros Hb H. unfold umax.
  assert (Hm : hd 0 l < b) by (destruct l as [|y t]; simpl; [exact Hb | apply H; left; reflexivity]).
  revert Hm. generalize (hd 0 l). induction l as [|y t IH]; intros m Hm; simpl; [exact Hm|].
  assert (Hy : y < b) by (apply H; left; reflexivity).
  assert (Ht : fold_right Nat.max m t < b).
  { apply IH; [|exact Hm]. intros x Hx. apply H. right. exact Hx. }
  lia.
Qed.

Lemma window_of_contains (rows cols : nat) (cloud_nbh : Z) (vec : list nat) (p : nat) :
  (0 <= cloud_nbh)%Z ->
  (Z.of_nat rows + cloud_nbh <= int_max)%Z ->
  (Z.of_nat cols + cloud_nbh <= int_max)%Z ->
  (forall q, In q vec -> q < rows * cols) ->
  In p vec ->
  in_window rows (window_of rows cols cloud_nbh vec) p = true.
Proof.
  intros Hn Hrn Hcn Hvec Hin.
  pose proof (Hvec p Hin) as Hp.
  assert (Hrows : 0 < rows) by (destruct rows; simpl in *; lia).
  assert (Hcols : 0 < cols) by (destruct cols; lia).
  assert (Hcol : p / rows < cols) by (apply Nat.Div0.div_lt_upper_bound; lia).
  assert (Hrow : p mod rows < rows) by (apply Nat.mod_upper_bound; lia).
  assert (Er : p - p / rows * rows = p mod rows).
  { pose proof (Nat.div_mod_eq p rows). lia. }
  pose proof (umin_le _ _ (in_map (fun i => i / rows) vec p Hin)) as C1.
  pose proof (umax_ge _ _ (in_map (fun i => i / rows) vec p Hin)) as C2.
  pose proof (umin_le _ _ (in_map (fun i => i - i / rows * rows) vec p Hin)) as R1.
  pose proof (umax_ge _ _ (in_map (fun i => i - i / rows * rows) vec p Hin)) as R2.
  assert (C3 : umax (map (fun i => i / rows) vec) < cols).
  { apply umax_below; [exact Hcols|]. intros x Hx. apply in_map_iff in Hx.
    destruct Hx as (q & <- & Hq). apply Nat.Div0.div_lt_upper_bound.
    specialize (Hvec q Hq). lia. }
  assert (R3 : umax (map (fun i => i - i / rows * rows) vec) < rows).
  { apply umax_below; [exact Hrows|]. intros x Hx. apply in_map_iff in Hx.
    destruct Hx as (q & <- & Hq). pose proof (Nat.div_mod_eq q rows).
    pose proof (Nat.mod_upper_bound q rows). lia. }
  cbv beta in C1, C2, R1, R2. rewrite Er in R1, R2.
  apply in_window_bounds. unfold window_of. cbv zeta.
  rewrite !to_int_id by (unfold int_min, int_max in *; lia).
  cbn [up_row down_row left_col right_col].
  split_ifs; lia.
Qed.

Lemma pixel_at_below (rows cols : nat) (w : window) (k : nat) :
  window_ok rows w -> (right_col w <= Z.of_nat cols - 1)%Z ->
  k < num_sub_rows w * num_sub_cols w ->
  pixel_at rows w k < rows * cols.
Proof.
  intros (Hu & Hd & Hl) Hr Hk.
  unfold pixel_at, num_sub_rows, num_sub_cols in *.
  set (nsr := Z.to_nat (down_row w - up_row w + 1)) in *.
  set (nsc := Z.to_nat (right_col w - left_col w + 1)) in *.
  assert (Ha : k mod nsr < nsr) by (apply Nat.mod_upper_bound; subst nsr; lia).
  assert (Hb : k / nsr < nsc) by (apply Nat.Div0.div_lt_upper_bound; exact Hk).
  assert (H1 : Z.to_nat (up_row w) + k mod nsr < rows) by (subst nsr; lia).
  assert (H2 : Z.to_nat (left_col w) + k / nsr < cols) by (subst nsc; lia).
  nia.
Qed.

(** X2. Window clamping: whenever a cloud has a neighbourhood, its bounds
    lie inside the image, [0 <= up_row <= down_row <= rows - 1] and
    [0 <= left_col <= right_col <= cols - 1], whatever the margin
    [cloud_nbh], and every cell the block is cut from is a cell of the
    image. *)
Theorem window_within_image (rows cols : nat) (cloud_nbh : Z) (cloud_mask : list Z)
    (code : Z) (w : window) :
  region_window rows cols cloud_nbh cloud_mask code = Some w ->
  (0 <= up_row w <= down_row w)%Z /\ (down_row w <= Z.of_nat rows - 1)%Z
  /\ (0 <= left_col w <= right_col w)%Z /\ (right_col w <= Z.of_nat cols - 1)%Z
  /\ forall k, k < num_sub_rows w * num_sub_cols w -> pixel_at rows w k < rows * cols.
Proof.
  intros H. destruct (region_window_eq _ _ _ _ _ H) as [E Hok].
  assert (Hr : (right_col w <= Z.of_nat cols - 1)%Z).
  { rewrite E. unfold window_of; simpl. split_ifs; lia. }
  destruct Hok as (Hu & Hd & Hl).
  repeat split; try lia.
  intros k Hk. apply pixel_at_below; [repeat split; lia | exact Hr | exact Hk].
Qed.

Lemma window_within_image_witness :
  region_window 1 8 4 Examples.mid_mask 1 = Some Examples.row8_w
  /\ ((0 <= up_row Examples.row8_w <= down_row Examples.row8_w)%Z
      /\ (down_row Examples.row8_w <= Z.of_nat 1 - 1)%Z
      /\ (0 <= left_col Examples.row8_w <= right_col Examples.row8_w)%Z
      /\ (right_col Examples.row8_w <= Z.of_nat 8 - 1)%Z
      /\ forall k, k < num_sub_rows Examples.row8_w * num_sub_cols Examples.row8_w ->
                   pixel_at 1 Examples.row8_w k < 1 * 8).
Proof.
  assert (H : region_window 1 8 4 Examples.mid_mask 1 = Some Examples.row8_w)
    by reflexivity.
  split; [exact H | exact (@window_within_image 1 8 4 Examples.mid_mask 1 Examples.row8_w H)].
Defined.

Lemma code_window_exists (rows cols : nat) (cloud_nbh : Z) (cloud_mask : list Z)
    (code : Z) :
  (0 <= cloud_nbh)%Z ->
  (Z.of_nat rows + cloud_nbh <= int_max)%Z ->
  (Z.of_nat cols + cloud_nbh <= int_max)%Z ->
  length cloud_mask = rows * cols ->
  In code (cloud_codes cloud_mask) -> (code <= int_max)%Z ->
  exists w,
    region_window rows cols cloud_nbh cloud_mask code = Some w
    /\ forall p, p < length cloud_mask -> nth p cloud_mask 0%Z = code ->
                 in_window rows w p = true.
Proof.
  intros Hn Hrn Hcn Hl Hc Hi. apply cloud_codes_spec in Hc. destruct Hc as [Hin H1].
  destruct (In_nth _ _ 0%Z Hin) as (p0 & Hp0 & Ep0).
  set (vec := find (fun v => (v =? code)%Z) cloud_mask).
  assert (Hv : forall p, p < length cloud_mask -> nth p cloud_mask 0%Z = code -> In p vec).
  { intros p Hp Ep. subst vec. apply (In_find _ 0%Z). split; [exact Hp|].
    apply Z.eqb_eq. exact Ep. }
  assert (Hb : forall q, In q vec -> q < rows * cols).
  { intros q Hq. subst vec. apply (In_find _ 0%Z) in Hq. lia. }
  assert (Hw : forall p, p < length cloud_mask -> nth p cloud_mask 0%Z = code ->
                         in_window rows (window_of rows cols cloud_nbh vec) p = true).
  { intros p Hp Ep.
    apply window_of_contains; [exact Hn | exact Hrn | exact Hcn | exact Hb |].
    apply Hv; assumption. }
  exists (window_of rows cols cloud_nbh vec). split; [|exact Hw].
  unfold region_window. fold vec. cbv zeta.
  assert (Ei : in_int code = true).
  { unfold in_int, int_min. apply andb_true_iff. split; apply Z.leb_le; lia. }
  rewrite Ei. cbn [negb].
  pose proof (Hv p0 Hp0 Ep0) as Hin0.
  destruct (length vec =? 0) eqn:E.
  { apply Nat.eqb_eq in E. destruct vec; [destruct Hin0 | discriminate]. }
  pose proof (proj1 (in_window_bounds _ _ _) (Hw p0 Hp0 Ep0)) as [B1 B2].
  destruct (_ || _) eqn:E2; [|reflexivity].
  apply orb_prop in E2. rewrite !Z.gtb_ltb, !Z.ltb_lt in E2. lia.
Qed.

(** X3. For a mask of the image's size, a margin that is not negative and
    image sides that stay within [int] with the margin added
    ([rows + cloud_nbh <= INT_MAX], [cols + cloud_nbh <= INT_MAX]), every
    cloud code up to [INT_MAX] that the routine loops over has a
    neighbourhood ([min] and [tube] do not throw), and the neighbourhood
    contains every cell of the cloud. *)
Theorem cloud_has_window (rows cols : nat) (cloud_nbh : Z) (cloud_mask : list Z)
    (code : Z) :
  (0 <= cloud_nbh)%Z ->
  (Z.of_nat rows + cloud_nbh <= int_max)%Z ->
  (Z.of_nat cols + cloud_nbh <= int_max)%Z ->
  length cloud_mask = rows * cols ->
  In code (cloud_codes cloud_mask) -> (code <= int_max)%Z ->
  exists w,
    region_window rows cols cloud_nbh cloud_mask code = Some w
    /\ forall p, p < length cloud_mask -> nth p cloud_mask 0%Z = code ->
                 in_window rows w p = true.
Proof. apply code_window_exists. Qed.

Lemma cloud_has_window_witness :
  ((0 <= 1)%Z /\ (Z.of_nat 1 + 1 <= int_max)%Z /\ (Z.of_nat 8 + 1 <= int_max)%Z
   /\ length Examples.far_mask = 1 * 8
   /\ In 2%Z (cloud_codes Examples.far_mask) /\ (2 <= int_max)%Z)
  /\ exists w,
       region_window 1 8 1 Examples.far_mask 2 = Some w
       /\ forall p, p < length Examples.far_mask -> nth p Examples.far_mask 0%Z = 2%Z ->
                    in_window 1 w p = true.
Proof.
  assert (H1 : (0 <= 1)%Z) by lia.
  assert (H2 : (Z.of_nat 1 + 1 <= int_max)%Z) by (vm_compute; discriminate).
  assert (H3 : (Z.of_nat 8 + 1 <= int_max)%Z) by (vm_compute; discriminate).
  assert (H4 : length Examples.far_mask = 1 * 8) by reflexivity.
  assert (H5 : In 2%Z (cloud_codes Examples.far_mask)) by (vm_compute; auto).
  assert (H6 : (2 <= int_max)%Z) by (vm_compute; discriminate).
  split; [exact (conj H1 (conj H2 (conj H3 (conj H4 (conj H5 H6)))))|].
  exact (@cloud_has_window 1 8 1 Examples.far_mask 2 H1 H2 H3 H4 H5 H6).
Defined.

(** Where the bounds leave [int]. With the margin [INT_MAX] the sum of
    line 59 wraps to a negative [right_col], below [left_col]: [tube]
    throws, on a mask that a smaller margin handles. A code above
    [INT_MAX] has no neighbourhood either. *)
Lemma margin_int_max_has_no_window :
  region_window 1 8 int_max Examples.far_mask 2 = None
  /\ cloud_fill (A := binary64) 1 8 1 1 2 int_max 0 255 Examples.far_clear
       Examples.far_mask Examples.far_cloudy = None
  /\ region_window 1 8 (int_max - 8) Examples.far_mask 2
     = Some {| up_row := 0; left_col := 0; down_row := 0; right_col := 7 |}.
Proof. split; [|split]; vm_compute; reflexivity. Qed.

Lemma code_above_int_max_has_no_window :
  In 2147483648%Z (cloud_codes [0; 2147483648; 0]%Z)
  /\ region_window 1 3 1 [0; 2147483648; 0]%Z 2147483648 = None.
Proof. split; [vm_compute; auto | vm_compute; reflexivity]. Qed.

(** *** Cutting a block out and copying it back (lines 76-85, 188-194) *)

Lemma sub_index_round (rows : nat) (w : window) (p : nat) :
  window_ok rows w -> in_window rows w p = true ->
  pixel_at rows w (sub_index rows w p) = p
  /\ sub_index rows w p < num_sub_rows w * num_sub_cols w.
Proof.
  intros (Hu & Hd & Hl) Hin. apply in_window_bounds in Hin. destruct Hin as [Hr Hc].
  unfold pixel_at, sub_index, num_sub_rows, num_sub_cols in *.
  set (nsr := Z.to_nat (down_row w - up_row w + 1)) in *.
  set (nsc := Z.to_nat (right_col w - left_col w + 1)) in *.
  assert (Ha : p mod rows - Z.to_nat (up_row w) < nsr) by (subst nsr; lia).
  assert (Hb : p / rows - Z.to_nat (left_col w) < nsc) by (subst nsc; lia).
  destruct (rows_decode (p / rows - Z.to_nat (left_col w)) Ha) as [E1 E2].
  rewrite E1, E2. pose proof (Nat.div_mod_eq p rows) as Ep. split.
  - replace (Z.to_nat (up_row w) + (p mod rows - Z.to_nat (up_row w)))
      with (p mod rows) by lia.
    replace (Z.to_nat (left_col w) + (p / rows - Z.to_nat (left_col w)))
      with (p / rows) by lia.
    lia.
  - nia.
Qed.

Lemma map_seq_nth {T : Type} (d : T) (l : list T) :
  map (fun k => nth k l d) (seq 0 (length l)) = l.
Proof.
  apply (nth_ext _ _ d d).
  - rewrite length_map, length_seq. reflexivity.
  - intros k Hk. rewrite length_map, length_seq in Hk.
    rewrite nth_map_seq by exact Hk. reflexivity.
Qed.

Lemma length_sub_block {T : Type} (rows : nat) (d : T) (w : window) (img : list T) :
  length (sub_block rows d w img) = num_sub_rows w * num_sub_cols w.
Proof. unfold sub_block. rewrite length_map, length_seq. reflexivity. Qed.

Lemma nth_sub_block {T : Type} (rows : nat) (d : T) (w : window) (img : list T) (k : nat) :
  k < num_sub_rows w * num_sub_cols w ->
  nth k (sub_block rows d w img) d = nth (pixel_at rows w k) img d.
Proof. intros Hk. unfold sub_block. rewrite nth_map_seq by exact Hk. reflexivity. Qed.

(** X4. Copying back the block that was cut out changes nothing: for a
    neighbourhood inside the image, writing [sub_cloudy] back as it was
    extracted gives the image the block was cut from. The cells of a
    neighbourhood whose rows the pixel loop does not touch are therefore
    returned with their input values. *)
Theorem write_back_of_sub_block {num : Type} (rows : nat) (w : window) (cloudy : mat num) :
  window_ok rows w ->
  write_back rows w (sub_block rows [] w cloudy) cloudy = cloudy.
Proof.
  intros Hw.
  transitivity (map (fun k => nth k cloudy []) (seq 0 (length cloudy)));
    [|apply map_seq_nth].
  unfold write_back. apply map_ext_in. intros p Hp. apply in_seq in Hp.
  destruct (in_window rows w p) eqn:E; [|reflexivity].
  destruct (@sub_index_round rows w p Hw E) as [E1 E2].
  rewrite nth_sub_block by exact E2. rewrite E1. reflexivity.
Qed.

Lemma write_back_of_sub_block_witness :
  window_ok 1 Examples.strip_w
  /\ write_back 1 Examples.strip_w
       (sub_block 1 [] Examples.strip_w Examples.strip_cloudy) Examples.strip_cloudy
     = Examples.strip_cloudy.
Proof.
  assert (H : window_ok 1 Examples.strip_w) by (unfold window_ok; simpl; lia).
  split; [exact H | exact (@write_back_of_sub_block float 1 Examples.strip_w
                             Examples.strip_cloudy H)].
Defined.

(** X5. Cutting out the block that was copied back returns it: for a
    neighbourhood inside an image of [rows * cols] pixels and a block of the
    neighbourhood's size, the block read from the image after the
    write-back is the block that was written. *)
Theorem sub_block_of_write_back {num : Type} (rows cols : nat) (w : window)
    (sub_cloudy cloudy : mat num) :
  window_ok rows w -> (right_col w <= Z.of_nat cols - 1)%Z ->
  length cloudy = rows * cols ->
  length sub_cloudy = num_sub_rows w * num_sub_cols w ->
  sub_block rows [] w (write_back rows w sub_cloudy cloudy) = sub_cloudy.
Proof.
  intros Hw Hr Hl Hs.
  transitivity (map (fun k => nth k sub_cloudy []) (seq 0 (length sub_cloudy)));
    [|apply map_seq_nth].
  rewrite Hs. unfold sub_block. apply map_ext_in. intros k Hk. apply in_seq in Hk.
  assert (Hk' : k < num_sub_rows w * num_sub_cols w) by lia.
  rewrite nth_write_back
    by (rewrite Hl; apply pixel_at_below; assumption).
  destruct (@pixel_at_in_window rows w k Hw Hk') as [E1 E2].
  rewrite E1, E2. reflexivity.
Qed.

Lemma sub_block_of_write_back_witness :
  (window_ok 1 Examples.strip_w
   /\ (right_col Examples.strip_w <= Z.of_nat 6 - 1)%Z
   /\ length Examples.strip_cloudy = 1 * 6
   /\ length Examples.strip_clear
      = num_sub_rows Examples.strip_w * num_sub_cols Examples.strip_w)
  /\ sub_block 1 [] Examples.strip_w
       (write_back 1 Examples.strip_w Examples.strip_clear Examples.strip_cloudy)
     = Examples.strip_clear.
Proof.
  assert (H1 : window_ok 1 Examples.strip_w) by (unfold window_ok; simpl; lia).
  assert (H2 : (right_col Examples.strip_w <= Z.of_nat 6 - 1)%Z) by (simpl; lia).
  assert (H3 : length Examples.strip_cloudy = 1 * 6) by reflexivity.
  assert (H4 : length Examples.strip_clear
               = num_sub_rows Examples.strip_w * num_sub_cols Examples.strip_w)
    by reflexivity.
  split; [exact (conj H1 (conj H2 (conj H3 H4)))|].
  exact (@sub_block_of_write_back float 1 6 Examples.strip_w Examples.strip_clear
           Examples.strip_cloudy H1 H2 H3 H4).
Defined.

(** *** The pixels of one cloud (lines 109-186) *)

Section PixelLoop.
Context {num : Type} {A : Arith num}.
Variable bands : nat.
Variables num_class min_pixel DN_min DN_max code : Z.
Variable w : window.
Variable m : list Z.
Variable sub_clear : mat num.

Local Abbreviation step :=
  (fill_step bands num_class min_pixel DN_min DN_max code w m sub_clear).
Local Abbreviation pixel :=
  (fill_pixel bands num_class min_pixel DN_min DN_max code w m sub_clear).

Lemma length_set_row (k : nat) (r : row num) (s : mat num) :
  length (set_row k r s) = length s.
Proof.
  revert k. induction s as [|x t IH]; intros k; simpl; [destruct k; reflexivity|].
  destruct k; simpl; [reflexivity | rewrite IH; reflexivity].
Qed.

Lemma nth_set_row_same (k : nat) (r : row num) (s : mat num) :
  k < length s -> nth k (set_row k r s) [] = r.
Proof.
  revert k. induction s as [|x t IH]; intros k Hk; simpl in Hk; [lia|].
  destruct k; simpl; [reflexivity | apply IH; lia].
Qed.

Lemma fill_steps_spec (s0 out : mat num) (n : nat) :
  forall (a : nat) (s : mat num),
    fold_left (step s0) (seq a n) (Some s) = Some out ->
    a + n <= length s ->
    length out = length s
    /\ (forall j, a <= j < a + n -> pixel s0 j = Some (nth j out []))
    /\ (forall j, j < a \/ a + n <= j -> nth j out [] = nth j s []).
Proof.
  induction n as [|n IH]; intros a s; simpl.
  - intros H _. injection H as <-.
    split; [reflexivity | split; [intros j Hj; lia | intros; reflexivity]].
  - destruct (pixel s0 a) as [r|] eqn:E; [|rewrite fill_steps_failed; discriminate].
    intros H Hl.
    destruct (IH (S a) (set_row a r s) H) as (L & P & O);
      [rewrite length_set_row; lia|].
    rewrite length_set_row in L. split; [exact L|]. split.
    + intros j Hj. destruct (Nat.eq_dec j a) as [->|Hne].
      * rewrite O by lia. rewrite nth_set_row_same by lia. exact E.
      * apply P. lia.
    + intros j Hj. rewrite O by lia. apply nth_set_row_other. lia.
Qed.

Lemma fill_sub_rows_spec (sub_cloudy out : mat num) :
  fill_sub bands num_class min_pixel DN_min DN_max code w m sub_clear sub_cloudy
    = Some out ->
  length (sub_cloud_vec_i code m) <= length sub_cloudy ->
  length out = length sub_cloudy
  /\ (forall ic, ic < length (sub_cloud_vec_i code m) ->
                 pixel sub_cloudy ic = Some (nth ic out []))
  /\ (forall j, length (sub_cloud_vec_i code m) <= j ->
                nth j out [] = nth j sub_cloudy []).
Proof.
  unfold fill_sub. intros H Hl.
  destruct (fill_steps_spec sub_cloudy _ _ _ H) as (L & P & O); [lia|].
  split; [exact L|]. split.
  - intros ic Hic. apply P. lia.
  - intros j Hj. apply O. lia.
Qed.

(** X6. The pixels of a cloud are filled independently, each from the
    neighbourhood as it was before the loop. When the fill of a
    neighbourhood returns, the block has its size, its row [ic] is the row
    that one turn of the loop computes from the untouched block, for every
    [ic] below the number of pixels of the cloud, and every other row is the
    row of the untouched block. *)
Theorem fill_sub_pixels (sub_cloudy out : mat num) :
  fill_sub bands num_class min_pixel DN_min DN_max code w m sub_clear sub_cloudy
    = Some out ->
  length (sub_cloud_vec_i code m) <= length sub_cloudy ->
  length out = length sub_cloudy
  /\ (forall ic, ic < length (sub_cloud_vec_i code m) ->
                 pixel sub_cloudy ic = Some (nth ic out []))
  /\ (forall j, length (sub_cloud_vec_i code m) <= j ->
                nth j out [] = nth j sub_cloudy []).
Proof. apply fill_sub_rows_spec. Qed.

End PixelLoop.

Lemma fill_sub_pixels_witness :
  (fill_sub (A := binary64) 1 1 2 0 255 1 Examples.strip_w Examples.strip_mask
     Examples.strip_clear Examples.strip_cloudy
   = Some (Examples.px [13; 20; 30; 99; 53; 66]%Z)
   /\ length (sub_cloud_vec_i 1 Examples.strip_mask) <= length Examples.strip_cloudy)
  /\ (length (Examples.px [13; 20; 30; 99; 53; 66]%Z) = length Examples.strip_cloudy
      /\ (forall ic, ic < length (sub_cloud_vec_i 1 Examples.strip_mask) ->
            fill_pixel (A := binary64) 1 1 2 0 255 1 Examples.strip_w
              Examples.strip_mask Examples.strip_clear Examples.strip_cloudy ic
            = Some (nth ic (Examples.px [13; 20; 30; 99; 53; 66]%Z) []))
      /\ (forall j, length (sub_cloud_vec_i 1 Examples.strip_mask) <= j ->
            nth j (Examples.px [13; 20; 30; 99; 53; 66]%Z) []
            = nth j Examples.strip_cloudy [])).
Proof.
  assert (H1 : fill_sub (A := binary64) 1 1 2 0 255 1 Examples.strip_w
                 Examples.strip_mask Examples.strip_clear Examples.strip_cloudy
               = Some (Examples.px [13; 20; 30; 99; 53; 66]%Z))
    by (vm_compute; reflexivity).
  assert (H2 : length (sub_cloud_vec_i 1 Examples.strip_mask)
               <= length Examples.strip_cloudy) by (simpl; lia).
  split; [exact (conj H1 H2)|].
  exact (@fill_sub_pixels float binary64 1 1 2 0 255 1 Examples.strip_w
           Examples.strip_mask Examples.strip_clear Examples.strip_cloudy _ H1 H2).
Defined.

(** *** One region and the whole image (lines 46-196) *)

Lemma length_find_from_le {T : Type} (f : T -> bool) (v : list T) :
  forall i, length (find_from f i v) <= length v.
Proof.
  induction v as [|x t IH]; intros i; simpl; [lia|].
  destruct (f x); simpl; specialize (IH (S i)); lia.
Qed.

Section RegionFacts.
Context {num : Type} {A : Arith num}.
Variables (rows cols bands : nat).
Variables (num_class min_pixel cloud_nbh DN_min DN_max : Z).
Variable clear : mat num.
Variable cloud_mask : list Z.

Local Abbreviation fillr :=
  (fill_region rows cols bands num_class min_pixel cloud_nbh DN_min DN_max clear cloud_mask).
Local Abbreviation fillrs :=
  (fill_regions rows cols bands num_class min_pixel cloud_nbh DN_min DN_max clear cloud_mask).
Local Abbreviation window_for := (region_window rows cols cloud_nbh cloud_mask).

Lemma fill_region_rows (cloudy out : mat num) (code : Z) (w : window) :
  window_for code = Some w ->
  fillr cloudy code = Some out ->
  length out = length cloudy
  /\ forall p, p < length cloudy ->
       (in_window rows w p = true ->
        sub_index rows w p < length (sub_cloud_vec_i code (sub_block rows 0%Z w cloud_mask)) ->
        fill_pixel bands num_class min_pixel DN_min DN_max code w
          (sub_block rows 0%Z w cloud_mask) (sub_block rows [] w clear)
          (sub_block rows [] w cloudy) (sub_index rows w p)
        = Some (nth p out []))
       /\ (in_window rows w p = false
           \/ length (sub_cloud_vec_i code (sub_block rows 0%Z w cloud_mask))
              <= sub_index rows w p ->
           nth p out [] = nth p cloudy []).
Proof.
  intros Hw. rewrite (fill_region_unfold _ _ _ _ _ _ _ _ _ _ _ _ Hw).
  destruct (fill_sub _ _ _ _ _ _ _ _ _ _) as [sub|] eqn:F; simpl; [|discriminate].
  intros H. injection H as <-.
  pose proof (proj2 (region_window_eq _ _ _ _ _ Hw)) as Hok.
  assert (Hk : length (sub_cloud_vec_i code (sub_block rows 0%Z w cloud_mask))
               <= length (sub_block rows [] w cloudy)).
  { unfold sub_cloud_vec_i, find.
    etransitivity; [apply length_find_from_le|]. rewrite !length_sub_block. lia. }
  destruct (fill_sub_rows_spec _ _ _ _ _ _ _ _ _ _ F Hk) as (L & P & O).
  split; [apply length_write_back|].
  intros p Hp. rewrite nth_write_back by exact Hp. split.
  - intros Hin Hlt. rewrite Hin. apply P. exact Hlt.
  - intros [Hout|Hge]; [rewrite Hout; reflexivity|].
    destruct (in_window rows w p) eqn:Hin; [|reflexivity].
    destruct (@sub_index_round rows w p Hok Hin) as [E1 E2].
    rewrite O by exact Hge. rewrite nth_sub_block by exact E2. rewrite E1. reflexivity.
Qed.

(** X7. One region's fill changes at most as many cells as the cloud has
    pixels, and they are the first cells of the neighbourhood: with [k] the
    number of pixels of the cloud, the cell at position [ic < k] of the
    neighbourhood (in column-major order) receives the row that turn [ic]
    of the pixel loop computes, and every other cell of the image, inside
    or outside the neighbourhood, is returned as it was. *)
Theorem fill_region_cells (cloudy out : mat num) (code : Z) (w : window) :
  window_for code = Some w ->
  fillr cloudy code = Some out ->
  length out = length cloudy
  /\ forall p, p < length cloudy ->
       (in_window rows w p = true ->
        sub_index rows w p < length (sub_cloud_vec_i code (sub_block rows 0%Z w cloud_mask)) ->
        fill_pixel bands num_class min_pixel DN_min DN_max code w
          (sub_block rows 0%Z w cloud_mask) (sub_block rows [] w clear)
          (sub_block rows [] w cloudy) (sub_index rows w p)
        = Some (nth p out []))
       /\ (in_window rows w p = false
           \/ length (sub_cloud_vec_i code (sub_block rows 0%Z w cloud_mask))
              <= sub_index rows w p ->
           nth p out [] = nth p cloudy []).
Proof. apply fill_region_rows. Qed.

Lemma fill_regions_frame (codes : list Z) :
  forall cloudy out,
    fillrs codes cloudy = Some out ->
    length out = length cloudy
    /\ forall p,
         (forall c w, In c codes -> window_for c = Some w -> in_window rows w p = false) ->
         nth p out [] = nth p cloudy [].
Proof.
  induction codes as [|c t IH]; intros cloudy out.
  - unfold fill_regions; simpl. intros H. injection H as <-.
    split; [reflexivity | intros; reflexivity].
  - rewrite fill_regions_cons. destruct (fillr cloudy c) as [c1|] eqn:E; [|discriminate].
    intros H. destruct (IH _ _ H) as [L1 F1].
    destruct (window_for c) as [w|] eqn:Ew;
      [|rewrite (fill_region_no_window _ _ _ _ _ _ _ _ _ _ _ _ Ew) in E; discriminate].
    destruct (fill_region_frame _ _ _ _ _ _ _ _ _ _ _ _ Ew E) as [L2 F2].
    split; [congruence|].
    intros p Hp. rewrite F1 by (intros c' w' Hc'; apply Hp; right; exact Hc').
    apply F2. apply (Hp c w); [left; reflexivity | exact Ew].
Qed.

(** X8. The routine keeps the size of the image and every cell that lies
    in no cloud's neighbourhood: whatever the regions do, a pixel farther
    than [cloud_nbh] from every cloud's bounding box keeps its input
    value in every band. *)
Theorem cloud_fill_outside_windows (cloudy out : mat num) :
  cloud_fill rows cols bands num_class min_pixel cloud_nbh DN_min DN_max clear
    cloud_mask cloudy = Some out ->
  length out = length cloudy
  /\ forall p,
       (forall c w, In c (cloud_codes cloud_mask) -> window_for c = Some w ->
                    in_window rows w p = false) ->
       nth p out [] = nth p cloudy [].
Proof. unfold cloud_fill. apply fill_regions_frame. Qed.

End RegionFacts.

Lemma fill_region_cells_witness :
  (region_window 1 6 3 Examples.strip_mask 1 = Some Examples.strip_w
   /\ fill_region (A := binary64) 1 6 1 1 2 3 0 255 Examples.strip_clear
        Examples.strip_mask Examples.strip_cloudy 1
      = Some (Examples.px [13; 20; 30; 99; 53; 66]%Z))
  /\ length (Examples.px [13; 20; 30; 99; 53; 66]%Z) = length Examples.strip_cloudy.
Proof.
  assert (H1 : region_window 1 6 3 Examples.strip_mask 1 = Some Examples.strip_w)
    by reflexivity.
  assert (H2 : fill_region (A := binary64) 1 6 1 1 2 3 0 255 Examples.strip_clear
                 Examples.strip_mask Examples.strip_cloudy 1
               = Some (Examples.px [13; 20; 30; 99; 53; 66]%Z))
    by (vm_compute; reflexivity).
  split; [exact (conj H1 H2)|].
  exact (proj1 (@fill_region_cells float binary64 1 6 1 1 2 3 0 255
                  Examples.strip_clear Examples.strip_mask Examples.strip_cloudy
                  _ 1%Z Examples.strip_w H1 H2)).
Defined.

Lemma cloud_fill_outside_windows_witness :
  cloud_fill (A := binary64) 1 8 1 1 2 1 0 255 Examples.far_clear Examples.far_mask
    Examples.far_cloudy
  = Some ([PrimFloat.div (float_of_Z 23) (float_of_Z 2)]
            :: Examples.px [99; 32; 43; 54; 66; 98; 87]%Z)
  /\ (length ([PrimFloat.div (float_of_Z 23) (float_of_Z 2)]
                :: Examples.px [99; 32; 43; 54; 66; 98; 87]%Z)
      = length Examples.far_cloudy
      /\ forall p,
           (forall c w, In c (cloud_codes Examples.far_mask) ->
                        region_window 1 8 1 Examples.far_mask c = Some w ->
                        in_window 1 w p = false) ->
           nth p ([PrimFloat.div (float_of_Z 23) (float_of_Z 2)]
                    :: Examples.px [99; 32; 43; 54; 66; 98; 87]%Z) []
           = nth p Examples.far_cloudy []).
Proof.
  assert (H : cloud_fill (A := binary64) 1 8 1 1 2 1 0 255 Examples.far_clear
                Examples.far_mask Examples.far_cloudy
              = Some ([PrimFloat.div (float_of_Z 23) (float_of_Z 2)]
                        :: Examples.px [99; 32; 43; 54; 66; 98; 87]%Z))
    by (vm_compute; reflexivity).
  split; [exact H|].
  exact (@cloud_fill_outside_windows float binary64 1 8 1 1 2 1 0 255
           Examples.far_clear Examples.far_mask Examples.far_cloudy _ H).
Defined.

(** *** When the routine throws (lines 100-132) *)

(** X20. The order of the clouds is immaterial when their neighbourhoods
    are pairwise non-overlapping: processing the cloud codes in any order
    gives the result of the routine, which takes them in ascending order
    (an image, or no image when some turn throws). Where neighbourhoods
    overlap the order can matter, see
    [order_matters_where_windows_overlap]. *)
Theorem cloud_order_immaterial_when_apart {num : Type} {A : Arith num}
    (rows cols bands : nat) (num_class min_pixel cloud_nbh DN_min DN_max : Z)
    (clear : mat num) (cloud_mask : list Z) (codes : list Z) (cloudy : mat num) :
  Permutation (cloud_codes cloud_mask) codes ->
  (forall x y, In x (cloud_codes cloud_mask) -> In y (cloud_codes cloud_mask) ->
               x <> y -> regions_apart rows cols cloud_nbh cloud_mask x y) ->
  fill_regions rows cols bands num_class min_pixel cloud_nbh DN_min DN_max clear
    cloud_mask codes cloudy
  = cloud_fill rows cols bands num_class min_pixel cloud_nbh DN_min DN_max clear
      cloud_mask cloudy.
Proof.
  intros Hp Ha. unfold cloud_fill. symmetry.
  apply fill_regions_permutation; assumption.
Qed.

Lemma cloud_order_immaterial_when_apart_witness :
  (Permutation (cloud_codes Examples.far_mask) [2; 1]%Z
   /\ (forall x y, In x (cloud_codes Examples.far_mask) ->
                   In y (cloud_codes Examples.far_mask) ->
                   x <> y -> regions_apart 1 8 1 Examples.far_mask x y))
  /\ fill_regions (A := binary64) 1 8 1 1 2 1 0 255 Examples.far_clear
       Examples.far_mask [2; 1]%Z Examples.far_cloudy
     = cloud_fill (A := binary64) 1 8 1 1 2 1 0 255 Examples.far_clear
         Examples.far_mask Examples.far_cloudy.
Proof.
  assert (H1 : Permutation (cloud_codes Examples.far_mask) [2; 1]%Z).
  { change (cloud_codes Examples.far_mask) with [1; 2]%Z. apply perm_swap. }
  assert (H2 : forall x y, In x (cloud_codes Examples.far_mask) ->
                 In y (cloud_codes Examples.far_mask) ->
                 x <> y -> regions_apart 1 8 1 Examples.far_mask x y).
  { change (cloud_codes Examples.far_mask) with [1; 2]%Z.
    intros x y [<-|[<-|[]]] [<-|[<-|[]]] Hne;
      try (exfalso; apply Hne; reflexivity); vm_compute; reflexivity. }
  split; [exact (conj H1 H2)|].
  exact (@cloud_order_immaterial_when_apart float binary64 1 8 1 1 2 1 0 255
           Examples.far_clear Examples.far_mask [2; 1]%Z Examples.far_cloudy H1 H2).
Defined.

Section Throws.
Context {num : Type} {A : Arith num}.
Variables (rows cols bands : nat).
Variables (num_class min_pixel cloud_nbh DN_min DN_max : Z).
Variable clear : mat num.
Variable cloud_mask : list Z.

Local Abbreviation fillr :=
  (fill_region rows cols bands num_class min_pixel cloud_nbh DN_min DN_max clear cloud_mask).
Local Abbreviation fillrs :=
  (fill_regions rows cols bands num_class min_pixel cloud_nbh DN_min DN_max clear cloud_mask).
Local Abbreviation window_for := (region_window rows cols cloud_nbh cloud_mask).







End Throws.


(** *** What the search returns (lines 121-144) *)

Lemma some_eq {T : Type} (a b : T) : Some a = Some b -> a = b.
Proof. intros H. injection H as H. exact H. Qed.

Section SearchResult.
Context {num : Type} {A : Arith num}.
Variable bands : nat.
Variable min_pixel : Z.
Variable th : row num.
Variables scc scyc : mat num.
Variable target : row num.
Variable dists : list num.

Local Abbreviation pass := (fun k => indicate_similar th scc target k =? bands).
Local Abbreviation walk' := (walk bands min_pixel th scc scyc target dists).
Local Abbreviation accept' := (fun s k => accept bands scc scyc target dists k s).

Lemma walk_bounds (visited : list nat) :
  forall n0 s0,
    n0 <= fst (walk' visited n0 s0) <= n0 + length visited
    /\ ((Z.of_nat n0 <= min_pixel)%Z ->
        (Z.of_nat (fst (walk' visited n0 s0)) <= min_pixel)%Z).
Proof.
  induction visited as [|k rest IH]; intros n0 s0; simpl; [lia|].
  destruct (Z.of_nat n0 <=? min_pixel - 1)%Z eqn:E; [|simpl; lia].
  apply Z.leb_le in E.
  destruct (indicate_similar th scc target k =? bands).
  - destruct (IH (S n0) (accept bands scc scyc target dists k s0)) as [B1 B2].
    split; [lia|]. intros _. apply B2. lia.
  - destruct (IH n0 s0) as [B1 B2]. split; [lia | exact B2].
Qed.

Lemma walk_prefix (visited : list nat) :
  forall n0 s0,
    exists m,
      m <= length visited
      /\ fst (walk' visited n0 s0) = n0 + length (filter pass (firstn m visited))
      /\ snd (walk' visited n0 s0)
         = fold_left accept' (filter pass (firstn m visited)) s0
      /\ (m = length visited
          \/ (min_pixel - 1 < Z.of_nat (fst (walk' visited n0 s0)))%Z).
Proof.
  induction visited as [|k rest IH]; intros n0 s0.
  - exists 0. simpl. repeat split; auto.
  - simpl. destruct (Z.of_nat n0 <=? min_pixel - 1)%Z eqn:E.
    + destruct (indicate_similar th scc target k =? bands) eqn:P.
      * destruct (IH (S n0) (accept bands scc scyc target dists k s0))
          as (m & M1 & M2 & M3 & M4).
        exists (S m). simpl. rewrite P. simpl.
        repeat split; [lia | lia | exact M3 | destruct M4; [left; lia | right; assumption]].
      * destruct (IH n0 s0) as (m & M1 & M2 & M3 & M4).
        exists (S m). simpl. rewrite P.
        repeat split; [lia | exact M2 | exact M3
                       | destruct M4; [left; lia | right; assumption]].
    + apply Z.leb_gt in E. exists 0. simpl.
      repeat split; [lia | lia | right; lia].
Qed.

Lemma accept_fold_arrays (ks : list nat) :
  forall s0,
    cloudy_similar (fold_left accept' ks s0) = cloudy_similar s0 ++ rows_at scyc ks
    /\ clear_similar (fold_left accept' ks s0) = clear_similar s0 ++ rows_at scc ks
    /\ rmse_similar (fold_left accept' ks s0)
       = rmse_similar s0 ++ map (rmse_of bands scc target) ks
    /\ dis_similar (fold_left accept' ks s0)
       = dis_similar s0 ++ map (fun k => nth k dists (of_Z 0)) ks.
Proof.
  induction ks as [|k t IH]; intros s0; simpl.
  - rewrite !app_nil_r. repeat split.
  - destruct (IH (accept bands scc scyc target dists k s0)) as (I1 & I2 & I3 & I4).
    rewrite I1, I2, I3, I4. unfold accept; simpl. rewrite <- !app_assoc.
    repeat split.
Qed.

End SearchResult.

Section SearchExtras.
Context {num : Type} {A : Arith num}.
Variable bands : nat.
Variable min_pixel : Z.
Variable th : row num.
Variables scc scyc : mat num.
Variables rs cs : list nat.
Variable target : row num.
Variables ri ci : nat.

(** X10. What the search returns. The similar pixels found are the
    candidates that pass the test of line 133 among the first [m] entries of
    the sorted order from position 2 on, in that order, for some [m]: their
    cloudy and clear rows, spectral distances and spatial distances fill the
    four arrays, and the walk stopped either at the end of the candidates
    or with exactly [min_pixel] pixels found. *)
Theorem search_result (num_similar : nat) (s : similar num) :
  find_similar bands min_pixel th scc scyc rs cs target ri ci = Some (num_similar, s) ->
  exists m,
    m <= length (skipn 2 (sort_index (clear_dists_of rs cs ri ci)))
    /\ num_similar
       = length (filter (fun k => indicate_similar th scc target k =? bands)
                   (firstn m (skipn 2 (sort_index (clear_dists_of rs cs ri ci)))))
    /\ cloudy_similar s
       = rows_at scyc
           (filter (fun k => indicate_similar th scc target k =? bands)
              (firstn m (skipn 2 (sort_index (clear_dists_of rs cs ri ci)))))
    /\ clear_similar s
       = rows_at scc
           (filter (fun k => indicate_similar th scc target k =? bands)
              (firstn m (skipn 2 (sort_index (clear_dists_of rs cs ri ci)))))
    /\ rmse_similar s
       = map (rmse_of bands scc target)
           (filter (fun k => indicate_similar th scc target k =? bands)
              (firstn m (skipn 2 (sort_index (clear_dists_of rs cs ri ci)))))
    /\ dis_similar s
       = map (fun k => nth k (clear_dists_of rs cs ri ci) (of_Z 0))
           (filter (fun k => indicate_similar th scc target k =? bands)
              (firstn m (skipn 2 (sort_index (clear_dists_of rs cs ri ci)))))
    /\ (m = length (skipn 2 (sort_index (clear_dists_of rs cs ri ci)))
        \/ Z.of_nat num_similar = min_pixel).
Proof.
  rewrite find_similar_walk. cbv zeta.
  destruct (length _ <=? 1); [discriminate|].
  destruct (min_pixel <? 0)%Z eqn:Em; [discriminate|]. apply Z.ltb_ge in Em.
  intros H. apply some_eq in H.
  set (dists := clear_dists_of rs cs ri ci) in *.
  set (visited := skipn 2 (sort_index dists)) in *.
  destruct (walk_prefix bands min_pixel th scc scyc target dists visited 0 no_similar)
    as (m & M1 & M2 & M3 & M4).
  destruct (walk_bounds bands min_pixel th scc scyc target dists visited 0 no_similar)
    as [_ B].
  rewrite H in M2, M3, M4, B. cbn [fst snd] in M2, M3, M4, B.
  destruct (accept_fold_arrays bands scc scyc target dists
              (filter (fun k => indicate_similar th scc target k =? bands)
                 (firstn m visited)) no_similar) as (A1 & A2 & A3 & A4).
  rewrite <- M3 in A1, A2, A3, A4. simpl in A1, A2, A3, A4.
  exists m. repeat split; try assumption.
  destruct M4 as [M4|M4]; [left; exact M4 | right]. simpl in B. lia.
Qed.

(** X11. The search never finds more than [min_pixel] similar pixels and
    never uses the two nearest clear pixels: the number found is at most
    [min_pixel] and at most the number of clear pixels of the neighbourhood
    less two, and each of the four arrays holds that many entries. *)
Theorem search_bounds (num_similar : nat) (s : similar num) :
  find_similar bands min_pixel th scc scyc rs cs target ri ci = Some (num_similar, s) ->
  (Z.of_nat num_similar <= min_pixel)%Z
  /\ num_similar + 2 <= Nat.min (length rs) (length cs)
  /\ filled num_similar s.
Proof.
  intros H. split; [|split; [|exact (find_similar_filled _ _ _ _ _ _ _ _ _ _ H)]];
    revert H; rewrite find_similar_walk; cbv zeta.
  - destruct (length _ <=? 1); [discriminate|].
    destruct (min_pixel <? 0)%Z eqn:Em; [discriminate|]. apply Z.ltb_ge in Em.
    intros H. apply some_eq in H.
    destruct (walk_bounds bands min_pixel th scc scyc target
                (clear_dists_of rs cs ri ci)
                (skipn 2 (sort_index (clear_dists_of rs cs ri ci))) 0 no_similar)
      as [_ B].
    rewrite H in B. simpl in B. lia.
  - destruct (length _ <=? 1) eqn:El; [discriminate|]. apply Nat.leb_gt in El.
    destruct (min_pixel <? 0)%Z; [discriminate|].
    intros H. apply some_eq in H.
    destruct (walk_bounds bands min_pixel th scc scyc target
                (clear_dists_of rs cs ri ci)
                (skipn 2 (sort_index (clear_dists_of rs cs ri ci))) 0 no_similar)
      as [B _].
    rewrite H in B. cbn [fst snd] in B. rewrite length_skipn in B.
    rewrite length_sort_index in B, El. unfold clear_dists_of, map2 in B, El.
    rewrite length_map, length_combine in B, El. lia.
Qed.

End SearchExtras.

(** X12. With [min_pixel] at most 1 the weighted blend never runs: every
    row the pixel loop writes is the fallback, row [ic] of [sub_clear] plus
    [mean_diff]. *)
Theorem small_min_pixel_is_fallback {num : Type} {A : Arith num} (bands : nat)
    (num_class min_pixel DN_min DN_max code : Z) (w : window) (m : list Z)
    (sub_clear sub_cloudy : mat num) (ic : nat) (r : row num) :
  (min_pixel <= 1)%Z ->
  fill_pixel bands num_class min_pixel DN_min DN_max code w m sub_clear sub_cloudy ic
    = Some r ->
  r = row_add (nth ic sub_clear []) (mean_diff bands m sub_clear sub_cloudy).
Proof.
  intros Hm. unfold fill_pixel, found_at.
  destruct (find_similar _ _ _ _ _ _ _ _ _ _) as [[n s]|] eqn:E; [|discriminate].
  intros H. injection H as <-. apply predict_fallback. simpl.
  revert E. rewrite find_similar_walk. cbv zeta.
  destruct (length _ <=? 1); [discriminate|].
  destruct (min_pixel <? 0)%Z eqn:Em; [discriminate|]. apply Z.ltb_ge in Em.
  intros H. apply some_eq in H.
  match type of H with
  | walk ?b ?mp ?t ?c1 ?c2 ?tg ?d ?v 0 no_similar = _ =>
      destruct (walk_bounds b mp t c1 c2 tg d v 0 no_similar) as [_ B]
  end.
  rewrite H in B. simpl in B. lia.
Qed.

Lemma search_result_witness :
  find_similar (A := binary64) 1 2 Examples.row8_th Examples.row8_scc
    Examples.row8_scyc Examples.row8_rs Examples.row8_cs
    (nth 0 Examples.row8_clear []) 0 0 = Some (2, Examples.row8_found)
  /\ exists m,
       m <= length (skipn 2 (sort_index (A := binary64)
                               (clear_dists_of Examples.row8_rs Examples.row8_cs 0 0)))
       /\ 2 = length (filter (fun k => indicate_similar (A := binary64) Examples.row8_th
                                         Examples.row8_scc
                                         (nth 0 Examples.row8_clear []) k =? 1)
                        (firstn m (skipn 2 (sort_index (A := binary64)
                           (clear_dists_of Examples.row8_rs Examples.row8_cs 0 0)))))
       /\ (m = length (skipn 2 (sort_index (A := binary64)
                                  (clear_dists_of Examples.row8_rs Examples.row8_cs 0 0)))
           \/ Z.of_nat 2 = 2%Z).
Proof.
  assert (H : find_similar (A := binary64) 1 2 Examples.row8_th Examples.row8_scc
                Examples.row8_scyc Examples.row8_rs Examples.row8_cs
                (nth 0 Examples.row8_clear []) 0 0 = Some (2, Examples.row8_found))
    by (vm_compute; reflexivity).
  split; [exact H|].
  destruct (@search_result float binary64 1 2 Examples.row8_th Examples.row8_scc
              Examples.row8_scyc Examples.row8_rs Examples.row8_cs
              (nth 0 Examples.row8_clear []) 0 0 2 Examples.row8_found H)
    as (m & M1 & M2 & _ & _ & _ & _ & M7).
  exists m. split; [exact M1 | split; [exact M2 | exact M7]].
Defined.

Lemma search_bounds_witness :
  find_similar (A := binary64) 1 2 Examples.row8_th Examples.row8_scc
    Examples.row8_scyc Examples.row8_rs Examples.row8_cs
    (nth 0 Examples.row8_clear []) 0 0 = Some (2, Examples.row8_found)
  /\ ((Z.of_nat 2 <= 2)%Z
      /\ 2 + 2 <= Nat.min (length Examples.row8_rs) (length Examples.row8_cs)
      /\ filled 2 Examples.row8_found).
Proof.
  assert (H : find_similar (A := binary64) 1 2 Examples.row8_th Examples.row8_scc
                Examples.row8_scyc Examples.row8_rs Examples.row8_cs
                (nth 0 Examples.row8_clear []) 0 0 = Some (2, Examples.row8_found))
    by (vm_compute; reflexivity).
  split; [exact H|].
  exact (@search_bounds float binary64 1 2 Examples.row8_th Examples.row8_scc
           Examples.row8_scyc Examples.row8_rs Examples.row8_cs
           (nth 0 Examples.row8_clear []) 0 0 2 Examples.row8_found H).
Defined.

Lemma small_min_pixel_is_fallback_witness :
  ((1 <= 1)%Z
   /\ fill_pixel (A := binary64) 1 1 1 0 255 1 Examples.strip_w Examples.strip_mask
        Examples.strip_clear Examples.strip_cloudy 0 = Some [float_of_Z 13])
  /\ [float_of_Z 13]
     = row_add (A := binary64) (nth 0 Examples.strip_clear [])
         (mean_diff 1 Examples.strip_mask Examples.strip_clear Examples.strip_cloudy).
Proof.
  assert (H1 : (1 <= 1)%Z) by lia.
  assert (H2 : fill_pixel (A := binary64) 1 1 1 0 255 1 Examples.strip_w
                 Examples.strip_mask Examples.strip_clear Examples.strip_cloudy 0
               = Some [float_of_Z 13]) by (vm_compute; reflexivity).
  split; [exact (conj H1 H2)|].
  exact (@small_min_pixel_is_fallback float binary64 1 1 1 0 255 1 Examples.strip_w
           Examples.strip_mask Examples.strip_clear Examples.strip_cloudy 0
           [float_of_Z 13] H1 H2).
Defined.

(** *** The similarity test and the predictor over the real numbers *)

Section RealPredictor.
Local Open Scope R_scope.

Lemma Rleb_true_iff (x y : R) : Rleb x y = true <-> x <= y.
Proof.
  pose proof (Rleb_spec x y) as H. destruct (Rleb x y).
  - split; [intros _; exact H | reflexivity].
  - split; [discriminate | intros H'; lra].
Qed.

Lemma Rltb_true_iff (x y : R) : Rltb x y = true <-> x < y.
Proof.
  pose proof (Rltb_spec x y) as H. destruct (Rltb x y).
  - split; [intros _; exact H | reflexivity].
  - split; [discriminate | intros H'; lra].
Qed.

(** X13. The similarity test of line 133 is one-sided: over the reals, a
    candidate passes in all bands exactly when in every band its clear
    value minus the value of the row it is compared with is at most the
    band's threshold; no absolute value is taken. *)
Theorem similar_test_one_sided (bands : nat) (th : row R) (scc : mat R)
    (target : row R) (k : nat) :
  length (nth k scc []) = bands -> length target = bands -> length th = bands ->
  (indicate_similar (A := real) th scc target k = bands
   <-> forall b, (b < bands)%nat ->
         nth b (nth k scc []) 0 - nth b target 0 <= nth b th 0).
Proof.
  intros H1 H2 H3.
  rewrite (indicate_similar_all_bands (A := real) th scc target k H1 H2 H3).
  cbn [nleb nsub of_Z real].
  split; intros H b Hb; apply Rleb_true_iff; apply H; exact Hb.
Qed.

Lemma similar_th_nonneg (bands : nat) (num_class : Z) (sub_clear : mat R) (t : R) :
  (1 <= num_class)%Z ->
  In t (similar_th_band (A := real) bands num_class sub_clear) -> 0 <= t.
Proof.
  intros Hn. unfold similar_th_band, stddev_cols, vstddev. rewrite map_map, in_map_iff.
  intros (b & <- & _). cbn [nmul ndiv nsqrt of_Z real].
  pose proof (sqrt_pos (vvar (A := real) (col (A := real) b sub_clear))) as Hs.
  assert (Hc : 1 <= IZR num_class) by (apply IZR_le; exact Hn).
  apply Rmult_le_pos; [lra|]. left. apply Rinv_0_lt_compat. lra.
Qed.

(** X14. With [num_class >= 1] every threshold of line 88 is at least 0
    over the reals, so a candidate whose clear value is at most that of the
    row it is compared with, in every band, always passes the test, however
    far below it lies. *)
Theorem darker_candidate_passes (bands : nat) (num_class : Z) (sub_clear scc : mat R)
    (target : row R) (k : nat) :
  (1 <= num_class)%Z ->
  length (nth k scc []) = bands -> length target = bands ->
  (forall b, (b < bands)%nat -> nth b (nth k scc []) 0 <= nth b target 0) ->
  Forall (fun t => 0 <= t) (similar_th_band (A := real) bands num_class sub_clear)
  /\ indicate_similar (A := real) (similar_th_band (A := real) bands num_class sub_clear)
       scc target k = bands.
Proof.
  intros Hn H1 H2 Hd.
  assert (Hth : forall t, In t (similar_th_band (A := real) bands num_class sub_clear) ->
                          0 <= t).
  { intros t. apply similar_th_nonneg. exact Hn. }
  assert (H3 : length (similar_th_band (A := real) bands num_class sub_clear) = bands).
  { unfold similar_th_band, stddev_cols. rewrite !length_map, length_seq. reflexivity. }
  split; [apply Forall_forall; exact Hth|].
  apply (indicate_similar_all_bands (A := real) _ scc target k H1 H2 H3).
  intros b Hb. cbn [nleb nsub of_Z real]. apply Rleb_true_iff.
  specialize (Hd b Hb).
  assert (0 <= nth b (similar_th_band (A := real) bands num_class sub_clear) 0).
  { apply Hth. apply nth_In. rewrite H3. exact Hb. }
  lra.
Qed.

(** X15. Min-max scaling (lines 156-157) puts every score in [1, 2) over
    the reals, one scaled score per score: the largest score stays below 2
    because of the 1e-6 in the denominator. *)
Theorem normalise_range (v : list R) :
  length (normalise (A := real) v) = length v
  /\ forall y, In y (normalise (A := real) v) -> 1 <= y < 2.
Proof.
  split; [unfold normalise; apply length_map|].
  unfold normalise. intros y. rewrite in_map_iff. intros (x & <- & Hx).
  pose proof (vmin_le v x Hx) as Hmin. pose proof (vmax_ge v x Hx) as Hmax.
  unfold eps6; cbn [nadd nsub ndiv of_Z real].
  set (lo := vmin (A := real) v) in *. set (hi := vmax (A := real) v) in *.
  assert (Hd : 0 < hi - lo + 1 / 1000000) by lra.
  assert (H0 : 0 <= (x - lo) / (hi - lo + 1 / 1000000)).
  { apply Rmult_le_pos; [lra|]. left. apply Rinv_0_lt_compat. exact Hd. }
  assert (H1 : (x - lo) / (hi - lo + 1 / 1000000) < 1).
  { apply (Rmult_lt_reg_r (hi - lo + 1 / 1000000)); [exact Hd|].
    unfold Rdiv. rewrite Rmult_assoc, Rinv_l by lra. lra. }
  lra.
Qed.

Lemma nth_map_seq_R (f : nat -> R) (n b : nat) :
  (b < n)%nat -> nth b (map f (seq 0 n)) 0 = f b.
Proof. intros H. apply nth_map_seq. exact H. Qed.

(** X16. The blended value lies between the two predictions. Over the
    reals, for a distance [r2 >= 0] and donor distances of mean [d >= 0]
    with [r2 + d > 0], the temporal weights are not negative and sum to 1,
    so in every band the value of lines 173-179 lies between the spatial
    prediction [predict_1] and the temporal prediction [predict_2] (it is
    [predict_1] itself when [predict_2] is outside the valid range). *)
Theorem blend_between (bands : nat) (DN_min DN_max : Z) (r2 : R) (target : row R)
    (s : similar R) (b : nat) :
  0 <= r2 -> 0 <= vmean (A := real) (dis_similar s) ->
  0 < r2 + vmean (A := real) (dis_similar s) ->
  (b < bands)%nat ->
  W_T1 (A := real) r2 (dis_similar s) + W_T2 (A := real) r2 (dis_similar s) = 1
  /\ Rmin (nth b (predict_1 (A := real) bands s) 0)
          (nth b (predict_2 (A := real) bands target s) 0)
     <= nth b (blend (A := real) bands DN_min DN_max r2 target s) 0
     <= Rmax (nth b (predict_1 (A := real) bands s) 0)
             (nth b (predict_2 (A := real) bands target s) 0).
Proof.
  intros Hr Hd Hs Hb.
  set (d := vmean (A := real) (dis_similar s)) in *.
  assert (E1 : W_T1 (A := real) r2 (dis_similar s) = r2 / (r2 + d)) by reflexivity.
  assert (E2 : W_T2 (A := real) r2 (dis_similar s) = d / (r2 + d)) by reflexivity.
  assert (P1 : 0 <= r2 / (r2 + d)).
  { apply Rmult_le_pos; [lra|]. left. apply Rinv_0_lt_compat. lra. }
  assert (P2 : 0 <= d / (r2 + d)).
  { apply Rmult_le_pos; [lra|]. left. apply Rinv_0_lt_compat. lra. }
  assert (S1 : r2 / (r2 + d) + d / (r2 + d) = 1) by (field; lra).
  split; [rewrite E1, E2; exact S1|].
  unfold blend. rewrite nth_map_seq_R by exact Hb. cbv zeta.
  set (p1 := nth b (predict_1 (A := real) bands s) 0).
  set (p2 := nth b (predict_2 (A := real) bands target s) 0).
  change (nth b (predict_1 (A := real) bands s) (of_Z (Arith := real) 0)) with p1.
  change (nth b (predict_2 (A := real) bands target s) (of_Z (Arith := real) 0)) with p2.
  pose proof (Rmin_l p1 p2). pose proof (Rmin_r p1 p2).
  pose proof (Rmax_l p1 p2). pose proof (Rmax_r p1 p2).
  destruct (_ && _); [|lra].
  rewrite E1, E2. cbn [nadd nmul real].
  set (a := r2 / (r2 + d)) in *. set (c := d / (r2 + d)) in *.
  assert (c = 1 - a) by lra. subst c. rewrite H3. split; nra.
Qed.

Lemma weighted_bounds (lo hi : R) (xs : list R) :
  forall ws, length xs = length ws ->
    (forall w, In w ws -> 0 < w) ->
    (forall x, In x xs -> lo <= x <= hi) ->
    lo * vsum (A := real) ws <= vsum (A := real) (map2 Rmult xs ws)
    <= hi * vsum (A := real) ws.
Proof.
  induction xs as [|x xs IH]; intros [|w ws] Hl Hw Hx; simpl in Hl; try discriminate.
  - unfold map2, vsum; cbn [combine map fold_left of_Z real]. lra.
  - unfold map2. cbn [combine map fst snd]. fold (map2 Rmult xs ws).
    rewrite !vsum_cons.
    assert (IH' := IH ws (eq_add_S _ _ Hl)
                     (fun u Hu => Hw u (or_intror Hu))
                     (fun u Hu => Hx u (or_intror Hu))).
    pose proof (Hw w (or_introl eq_refl)). pose proof (Hx x (or_introl eq_refl)).
    nra.
Qed.

(** X17. The spatial prediction never leaves the range of the donors.
    Over the reals, for a pixel on the [num_similar > 1] path,
    [predict_1] in a band is a weighted mean of the donors' cloudy values
    in that band with the weights of line 159, so it lies between any two
    bounds that hold for all of them. *)
Theorem predict_1_in_range (bands num_similar : nat) (s : similar R) (b : nat)
    (lo hi : R) :
  filled num_similar s -> (1 < num_similar)%nat -> (b < bands)%nat ->
  (forall x, In x (col (A := real) b (cloudy_similar s)) -> lo <= x <= hi) ->
  lo <= nth b (predict_1 (A := real) bands s) 0 <= hi.
Proof.
  intros (Hc & _ & Hr & Hd) Hn Hb Hx.
  destruct (@weight_normalised (rmse_similar s) (dis_similar s)) as (W1 & W2 & W3);
    [congruence | lia |].
  unfold predict_1, weighted_sum. rewrite nth_map_seq_R by exact Hb.
  cbn [nmul real].
  pose proof (@weighted_bounds lo hi (col (A := real) b (cloudy_similar s))
                (weight (A := real) (rmse_similar s) (dis_similar s))) as B.
  rewrite W2 in B. rewrite !Rmult_1_r in B. apply B.
  - unfold col. rewrite length_map. rewrite W3, Hr. exact Hc.
  - apply Forall_forall. exact W1.
  - exact Hx.
Qed.

End RealPredictor.

Section RealWitnesses.
Local Open Scope R_scope.

Lemma similar_test_one_sided_witness :
  (length (nth 0 [[5]] []) = 1%nat /\ length [7] = 1%nat /\ length [1] = 1%nat)
  /\ (indicate_similar (A := real) [1] [[5]] [7] 0 = 1%nat
      <-> forall b, (b < 1)%nat -> nth b (nth 0 [[5]] []) 0 - nth b [7] 0 <= nth b [1] 0).
Proof.
  assert (H1 : length (nth 0 [[5]] ([] : list R)) = 1%nat) by reflexivity.
  assert (H2 : length [7] = 1%nat) by reflexivity.
  assert (H3 : length [1] = 1%nat) by reflexivity.
  split; [exact (conj H1 (conj H2 H3))|].
  exact (@similar_test_one_sided 1 [1] [[5]] [7] 0 H1 H2 H3).
Defined.

Lemma darker_candidate_passes_witness :
  ((1 <= 1)%Z /\ length (nth 0 [[5]] []) = 1%nat /\ length [7] = 1%nat
   /\ (forall b, (b < 1)%nat -> nth b (nth 0 [[5]] []) 0 <= nth b [7] 0))
  /\ (Forall (fun t => 0 <= t) (similar_th_band (A := real) 1 1 [[1]; [2]])
      /\ indicate_similar (A := real) (similar_th_band (A := real) 1 1 [[1]; [2]])
           [[5]] [7] 0 = 1%nat).
Proof.
  assert (H1 : (1 <= 1)%Z) by lia.
  assert (H2 : length (nth 0 [[5]] ([] : list R)) = 1%nat) by reflexivity.
  assert (H3 : length [7] = 1%nat) by reflexivity.
  assert (H4 : forall b, (b < 1)%nat -> nth b (nth 0 [[5]] []) 0 <= nth b [7] 0).
  { intros b Hb. destruct b as [|b]; [simpl; lra | lia]. }
  split; [exact (conj H1 (conj H2 (conj H3 H4)))|].
  exact (@darker_candidate_passes 1 1 [[1]; [2]] [[5]] [7] 0 H1 H2 H3 H4).
Defined.

Lemma blend_between_witness :
  (0 <= 1 /\ 0 <= vmean (A := real) (dis_similar Examples.two_donors)
   /\ 0 < 1 + vmean (A := real) (dis_similar Examples.two_donors) /\ (0 < 1)%nat)
  /\ (W_T1 (A := real) 1 (dis_similar Examples.two_donors)
      + W_T2 (A := real) 1 (dis_similar Examples.two_donors) = 1
      /\ Rmin (nth 0 (predict_1 (A := real) 1 Examples.two_donors) 0)
              (nth 0 (predict_2 (A := real) 1 [50] Examples.two_donors) 0)
         <= nth 0 (blend (A := real) 1 0 255 1 [50] Examples.two_donors) 0
         <= Rmax (nth 0 (predict_1 (A := real) 1 Examples.two_donors) 0)
                 (nth 0 (predict_2 (A := real) 1 [50] Examples.two_donors) 0)).
Proof.
  assert (E : vmean (A := real) (dis_similar Examples.two_donors) = (0 + 3 + 4) / 2)
    by reflexivity.
  assert (H1 : 0 <= 1) by lra.
  assert (H2 : 0 <= vmean (A := real) (dis_similar Examples.two_donors))
    by (rewrite E; lra).
  assert (H3 : 0 < 1 + vmean (A := real) (dis_similar Examples.two_donors))
    by (rewrite E; lra).
  assert (H4 : (0 < 1)%nat) by lia.
  split; [exact (conj H1 (conj H2 (conj H3 H4)))|].
  exact (@blend_between 1 0 255 1 [50] Examples.two_donors 0%nat H1 H2 H3 H4).
Defined.

Lemma predict_1_in_range_witness :
  (filled 2 Examples.two_donors /\ (1 < 2)%nat /\ (0 < 1)%nat
   /\ (forall x, In x (col (A := real) 0 (cloudy_similar Examples.two_donors)) ->
                 53 <= x <= 54))
  /\ 53 <= nth 0 (predict_1 (A := real) 1 Examples.two_donors) 0 <= 54.
Proof.
  assert (H1 : filled 2 Examples.two_donors) by (repeat split).
  assert (H2 : (1 < 2)%nat) by lia.
  assert (H3 : (0 < 1)%nat) by lia.
  assert (H4 : forall x, In x (col (A := real) 0 (cloudy_similar Examples.two_donors)) ->
                         53 <= x <= 54).
  { simpl. intros x [<-|[<-|[]]]; lra. }
  split; [exact (conj H1 (conj H2 (conj H3 H4)))|].
  exact (@predict_1_in_range 1 2 Examples.two_donors 0%nat 53 54 H1 H2 H3 H4).
Defined.

End RealWitnesses.

Section WeightOrder.
Local Open Scope R_scope.

Lemma nth_map_R (f : R -> R) (l : list R) (i : nat) :
  (i < length l)%nat -> nth i (map f l) 0 = f (nth i l 0).
Proof.
  intros H. rewrite (nth_indep _ 0 (f 0)) by (rewrite length_map; exact H).
  apply map_nth.
Qed.

Lemma nth_map2_R (g : R -> R -> R) (a b : list R) (i : nat) :
  length a = length b -> (i < length a)%nat ->
  nth i (map2 g a b) 0 = g (nth i a 0) (nth i b 0).
Proof.
  intros Hl Hi. unfold map2.
  rewrite (nth_indep _ 0 (g 0 0)) by (rewrite length_map, length_combine; lia).
  change (g 0 0) with ((fun xy : R * R => g (fst xy) (snd xy)) (0, 0)).
  rewrite map_nth, combine_nth by exact Hl. reflexivity.
Qed.

Lemma normalise_monotone (v : list R) (i j : nat) :
  (i < length v)%nat -> (j < length v)%nat -> nth i v 0 <= nth j v 0 ->
  1 <= nth i (normalise (A := real) v) 0 <= nth j (normalise (A := real) v) 0.
Proof.
  intros Hi Hj Hle. unfold normalise. rewrite !nth_map_R by assumption.
  pose proof (vmin_le v _ (nth_In v 0 Hi)) as M1.
  pose proof (vmax_ge v _ (nth_In v 0 Hi)) as M2.
  unfold eps6; cbn [nadd nsub ndiv of_Z real].
  set (lo := vmin (A := real) v) in *. set (hi := vmax (A := real) v) in *.
  assert (Hd : 0 < / (hi - lo + 1 / 1000000)) by (apply Rinv_0_lt_compat; lra).
  unfold Rdiv at 1 3. split; nra.
Qed.

(** X18. Closer and more similar donors weigh more. Over the reals, of two
    similar pixels of one target, the one whose spectral distance and whose
    spatial distance are both no larger receives a weight (line 159) that is
    no smaller. *)
Theorem weight_monotone (rmse dis : list R) (i j : nat) :
  length rmse = length dis -> (i < length rmse)%nat -> (j < length rmse)%nat ->
  nth i rmse 0 <= nth j rmse 0 -> nth i dis 0 <= nth j dis 0 ->
  nth j (weight (A := real) rmse dis) 0 <= nth i (weight (A := real) rmse dis) 0.
Proof.
  intros Hl Hi Hj Hr Hd.
  destruct (normalise_monotone rmse Hi Hj Hr) as [A1 A2].
  destruct (normalise_monotone dis (i := i) (j := j)) as [B1 B2]; try lia; try exact Hd.
  assert (Ln : length (normalise (A := real) rmse) = length (normalise (A := real) dis)).
  { unfold normalise. rewrite !length_map. exact Hl. }
  assert (Lc : length (C_D (A := real) rmse dis) = length rmse).
  { unfold C_D, map2, normalise. rewrite length_map, length_combine, !length_map. lia. }
  assert (Ci : nth i (C_D (A := real) rmse dis) 0
               = nth i (normalise (A := real) rmse) 0 * nth i (normalise (A := real) dis) 0
                 + 1 / 10000000).
  { unfold C_D. rewrite nth_map2_R; [reflexivity | exact Ln |].
    unfold normalise. rewrite length_map. exact Hi. }
  assert (Cj : nth j (C_D (A := real) rmse dis) 0
               = nth j (normalise (A := real) rmse) 0 * nth j (normalise (A := real) dis) 0
                 + 1 / 10000000).
  { unfold C_D. rewrite nth_map2_R; [reflexivity | exact Ln |].
    unfold normalise. rewrite length_map. exact Hj. }
  unfold weight. cbv zeta. cbn [ndiv of_Z real].
  set (inv := map (fun c => 1 / c) (C_D (A := real) rmse dis)).
  assert (Li : length inv = length rmse) by (subst inv; rewrite length_map; exact Lc).
  assert (HS : 0 < vsum (A := real) inv).
  { apply vsum_pos.
    - intros E. rewrite E in Li. simpl in Li. lia.
    - subst inv. intros x Hx. apply in_map_iff in Hx. destruct Hx as (c & <- & Hc).
      apply C_D_pos in Hc. apply Rdiv_lt_0_compat; lra. }
  rewrite !nth_map_R by lia. subst inv. rewrite !nth_map_R by lia. rewrite Ci, Cj.
  set (ci := nth i (normalise (A := real) rmse) 0 * nth i (normalise (A := real) dis) 0
             + 1 / 10000000).
  set (cj := nth j (normalise (A := real) rmse) 0 * nth j (normalise (A := real) dis) 0
             + 1 / 10000000).
  assert (Pi : 0 < ci) by (subst ci; nra).
  assert (Pij : ci <= cj) by (subst ci cj; nra).
  assert (Hinv : / cj <= / ci) by (apply Rinv_le_contravar; assumption).
  assert (0 < / vsum (A := real) (map (fun c => 1 / c) (C_D (A := real) rmse dis)))
    by (apply Rinv_0_lt_compat; exact HS).
  unfold Rdiv. nra.
Qed.

Lemma weight_monotone_witness :
  (length [0; 1] = length [1; 2] /\ (0 < length [0; 1])%nat /\ (1 < length [0; 1])%nat
   /\ nth 0 [0; 1] 0 <= nth 1 [0; 1] 0 /\ nth 0 [1; 2] 0 <= nth 1 [1; 2] 0)
  /\ nth 1 (weight (A := real) [0; 1] [1; 2]) 0
     <= nth 0 (weight (A := real) [0; 1] [1; 2]) 0.
Proof.
  assert (H1 : length [0; 1] = length [1; 2]) by reflexivity.
  assert (H2 : (0 < length [0; 1])%nat) by (simpl; lia).
  assert (H3 : (1 < length [0; 1])%nat) by (simpl; lia).
  assert (H4 : nth 0 [0; 1] 0 <= nth 1 [0; 1] 0) by (simpl; lra).
  assert (H5 : nth 0 [1; 2] 0 <= nth 1 [1; 2] 0) by (simpl; lra).
  split; [exact (conj H1 (conj H2 (conj H3 (conj H4 H5))))|].
  exact (@weight_monotone [0; 1] [1; 2] 0%nat 1%nat H1 H2 H3 H4 H5).
Defined.

End WeightOrder.

(** *** What a region's fill reads of the cloudy image (lines 81, 97) *)

Section CloudyReads.
Context {num : Type} {A : Arith num}.
Variables (rows cols bands : nat).
Variables (num_class min_pixel cloud_nbh DN_min DN_max : Z).
Variable clear : mat num.
Variable cloud_mask : list Z.

Lemma fill_pixel_reads_clear_rows (code : Z) (w : window) (m : list Z)
    (sub_clear s s' : mat num) (ic : nat) :
  sub_cloudy_clear m s = sub_cloudy_clear m s' ->
  fill_pixel bands num_class min_pixel DN_min DN_max code w m sub_clear s ic
  = fill_pixel bands num_class min_pixel DN_min DN_max code w m sub_clear s' ic.
Proof.
  intros H. unfold fill_pixel, found_at, mean_diff. rewrite H. reflexivity.
Qed.

Lemma sub_cloudy_clear_block (w : window) (cloudy cloudy' : mat num) :
  window_ok rows w -> length cloudy = length cloudy' ->
  (forall p, p < length cloudy -> in_window rows w p = true ->
             nth p cloud_mask 0%Z = 0%Z -> nth p cloudy [] = nth p cloudy' []) ->
  sub_cloudy_clear (sub_block rows 0%Z w cloud_mask) (sub_block rows [] w cloudy)
  = sub_cloudy_clear (sub_block rows 0%Z w cloud_mask) (sub_block rows [] w cloudy').
Proof.
  intros Hw Hl H. unfold sub_cloudy_clear, rows_at. apply map_ext_in.
  intros k Hk. unfold sub_clear_vec_i in Hk. apply (In_find _ 0%Z) in Hk.
  destruct Hk as [Hk Hz]. rewrite length_sub_block in Hk.
  rewrite nth_sub_block in Hz by exact Hk. apply Z.eqb_eq in Hz.
  rewrite !nth_sub_block by exact Hk.
  destruct (@pixel_at_in_window rows w k Hw Hk) as [Hin _].
  destruct (Nat.lt_ge_cases (pixel_at rows w k) (length cloudy)) as [Hp|Hp].
  - apply H; assumption.
  - rewrite !nth_overflow; [reflexivity | rewrite <- Hl; exact Hp | exact Hp].
Qed.

(** X19. A region's fill reads the cloudy image at the clear pixels of the
    neighbourhood only. For two cloudy images of one size that agree on
    every cell of the neighbourhood with mask value 0, every turn of the
    pixel loop computes the same row, and the two filled images hold the same
    row in every cell the fill rewrites: the values under the clouds and in
    the cells marked -1 play no part. *)
Theorem cloud_values_not_read (cloudy cloudy' out out' : mat num) (code : Z) (w : window) :
  region_window rows cols cloud_nbh cloud_mask code = Some w ->
  length cloudy = length cloudy' ->
  (forall p, p < length cloudy -> in_window rows w p = true ->
             nth p cloud_mask 0%Z = 0%Z -> nth p cloudy [] = nth p cloudy' []) ->
  fill_region rows cols bands num_class min_pixel cloud_nbh DN_min DN_max clear
    cloud_mask cloudy code = Some out ->
  fill_region rows cols bands num_class min_pixel cloud_nbh DN_min DN_max clear
    cloud_mask cloudy' code = Some out' ->
  (forall ic,
     fill_pixel bands num_class min_pixel DN_min DN_max code w
       (sub_block rows 0%Z w cloud_mask) (sub_block rows [] w clear)
       (sub_block rows [] w cloudy) ic
     = fill_pixel bands num_class min_pixel DN_min DN_max code w
         (sub_block rows 0%Z w cloud_mask) (sub_block rows [] w clear)
         (sub_block rows [] w cloudy') ic)
  /\ forall p,
       in_window rows w p = true ->
       sub_index rows w p < length (sub_cloud_vec_i code (sub_block rows 0%Z w cloud_mask)) ->
       nth p out [] = nth p out' [].
Proof.
  intros Hw Hl H Ho Ho'.
  pose proof (proj2 (region_window_eq _ _ _ _ _ Hw)) as Hok.
  assert (P : forall ic,
     fill_pixel bands num_class min_pixel DN_min DN_max code w
       (sub_block rows 0%Z w cloud_mask) (sub_block rows [] w clear)
       (sub_block rows [] w cloudy) ic
     = fill_pixel bands num_class min_pixel DN_min DN_max code w
         (sub_block rows 0%Z w cloud_mask) (sub_block rows [] w clear)
         (sub_block rows [] w cloudy') ic).
  { intros ic. apply fill_pixel_reads_clear_rows.
    apply sub_cloudy_clear_block; assumption. }
  split; [exact P|]. intros p Hin Hk.
  destruct (@fill_region_rows num A rows cols bands num_class min_pixel cloud_nbh
              DN_min DN_max clear cloud_mask cloudy out code w Hw Ho) as [L C].
  destruct (@fill_region_rows num A rows cols bands num_class min_pixel cloud_nbh
              DN_min DN_max clear cloud_mask cloudy' out' code w Hw Ho') as [L' C'].
  destruct (Nat.lt_ge_cases p (length cloudy)) as [Hp|Hp].
  - destruct (C p Hp) as [C1 _]. destruct (C' p ltac:(lia)) as [C1' _].
    specialize (C1 Hin Hk). specialize (C1' Hin Hk). rewrite P in C1.
    rewrite C1 in C1'. injection C1' as E. exact E.
  - rewrite !nth_overflow; [reflexivity | lia | lia].
Qed.

End CloudyReads.

Lemma cloud_values_not_read_witness :
  (region_window 1 6 3 Examples.strip_mask 1 = Some Examples.strip_w
   /\ length Examples.strip_cloudy = length (Examples.px [10; 0; 0; 7; 53; 66]%Z)
   /\ (forall p, p < length Examples.strip_cloudy ->
                 in_window 1 Examples.strip_w p = true ->
                 nth p Examples.strip_mask 0%Z = 0%Z ->
                 nth p Examples.strip_cloudy []
                 = nth p (Examples.px [10; 0; 0; 7; 53; 66]%Z) [])
   /\ fill_region (A := binary64) 1 6 1 1 2 3 0 255 Examples.strip_clear
        Examples.strip_mask Examples.strip_cloudy 1
      = Some (Examples.px [13; 20; 30; 99; 53; 66]%Z)
   /\ fill_region (A := binary64) 1 6 1 1 2 3 0 255 Examples.strip_clear
        Examples.strip_mask (Examples.px [10; 0; 0; 7; 53; 66]%Z) 1
      = Some (Examples.px [13; 0; 0; 7; 53; 66]%Z))
  /\ forall p,
       in_window 1 Examples.strip_w p = true ->
       sub_index 1 Examples.strip_w p
       < length (sub_cloud_vec_i 1 (sub_block 1 0%Z Examples.strip_w Examples.strip_mask)) ->
       nth p (Examples.px [13; 20; 30; 99; 53; 66]%Z) []
       = nth p (Examples.px [13; 0; 0; 7; 53; 66]%Z) [].
Proof.
  assert (H1 : region_window 1 6 3 Examples.strip_mask 1 = Some Examples.strip_w)
    by reflexivity.
  assert (H2 : length Examples.strip_cloudy
               = length (Examples.px [10; 0; 0; 7; 53; 66]%Z)) by reflexivity.
  assert (H3 : forall p, p < length Examples.strip_cloudy ->
                 in_window 1 Examples.strip_w p = true ->
                 nth p Examples.strip_mask 0%Z = 0%Z ->
                 nth p Examples.strip_cloudy []
                 = nth p (Examples.px [10; 0; 0; 7; 53; 66]%Z) []).
  { intros p Hp _ Hm.
    do 6 (destruct p as [|p]; [simpl in Hm; try discriminate Hm; reflexivity|]).
    simpl in Hp. lia. }
  assert (H4 : fill_region (A := binary64) 1 6 1 1 2 3 0 255 Examples.strip_clear
                 Examples.strip_mask Examples.strip_cloudy 1
               = Some (Examples.px [13; 20; 30; 99; 53; 66]%Z))
    by (vm_compute; reflexivity).
  assert (H5 : fill_region (A := binary64) 1 6 1 1 2 3 0 255 Examples.strip_clear
                 Examples.strip_mask (Examples.px [10; 0; 0; 7; 53; 66]%Z) 1
               = Some (Examples.px [13; 0; 0; 7; 53; 66]%Z))
    by (vm_compute; reflexivity).
  split; [exact (conj H1 (conj H2 (conj H3 (conj H4 H5))))|].
  exact (proj2 (@cloud_values_not_read float binary64 1 6 1 1 2 3 0 255
                  Examples.strip_clear Examples.strip_mask Examples.strip_cloudy
                  (Examples.px [10; 0; 0; 7; 53; 66]%Z) _ _ 1%Z Examples.strip_w
                  H1 H2 H3 H4 H5)).
Defined.
